(** * verify_variant: content-preservation check between two HTML files

    A shallow embedding of [scripts/verify_variant.py] and the properties
    its specification states about it.

    Modelling conventions.
    - A Python [str] is a sequence of Unicode code points: [list N].
    - [set[str]] is stdpp's [gset]; a Python list is a Rocq list whose
      last element is the most recently appended one.
    - [html.parser.HTMLParser] and [str.lower] belong to the Python
      standard library, not to this program: the tokenizer is a section
      variable [scan] (document text to the exception it raises or to its
      handler events, in document order) and lower-casing is a section
      variable [lower].
    - The program catches no exception: what [Path.exists],
      [Path.read_text] or the parser raises ends the run.
    - Printing is recorded in a trace of effects; a printed line is
      recorded by its template and the values interpolated into it. *)

From Stdlib Require Import String Ascii NArith ZArith List Permutation Lia.
From stdpp Require Import base decidable countable list gmap sets sorting.

(** ** Strings *)

Abbreviation str := (list N).

(** An ASCII literal read as a Python string. *)
Fixpoint u (s : string) : str :=
  match s with
  | EmptyString => []
  | String a s' => N_of_ascii a :: u s'
  end.
Arguments u : simpl never.

(** [Py_UNICODE_ISSPACE]: the characters [\s] matches in a [str] pattern
    and the characters [str.strip()] removes. *)
Definition isspace (c : N) : bool :=
  (((0x09 <=? c) && (c <=? 0x0D))
  || ((0x1C <=? c) && (c <=? 0x1F))
  || (c =? 0x20)
  || (c =? 0x85)
  || (c =? 0xA0)
  || (c =? 0x1680)
  || ((0x2000 <=? c) && (c <=? 0x200A))
  || (c =? 0x2028)
  || (c =? 0x2029)
  || (c =? 0x202F)
  || (c =? 0x205F)
  || (c =? 0x3000))%N.

Definition SPACE : N := 0x20%N.

(** [re.sub(r"\s+", " ", text)]: a left-to-right scan; [in_run] says that
    the previous character belonged to the whitespace run being replaced. *)
Fixpoint sub_ws (in_run : bool) (text : str) : str :=
  match text with
  | [] => []
  | c :: rest =>
      if isspace c
      then (if in_run then sub_ws true rest else SPACE :: sub_ws true rest)
      else c :: sub_ws false rest
  end.

Fixpoint lstrip (s : str) : str :=
  match s with
  | [] => []
  | c :: rest => if isspace c then lstrip rest else s
  end.

Definition rstrip (s : str) : str := rev (lstrip (rev s)).

(** [str.strip()] without arguments. *)
Definition strip (s : str) : str := rstrip (lstrip s).

Definition _normalize_text (text : str) : str := strip (sub_ws false text).

(** ** The extractor *)

Definition EXCLUDED_TEXT_TAGS : gset str :=
  {[ u "script"; u "style"; u "svg"; u "defs" ]}.

Record VariantExtractor := mkExtractor {
  _stack : list str;
  text_nodes : list str;
  ids : gset str;
  anchor_hrefs : gset str
}.

(** [VariantExtractor.__init__] *)
Definition init : VariantExtractor :=
  {| _stack := []; text_nodes := []; ids := ∅; anchor_hrefs := ∅ |}.

Definition _in_excluded_text_context (self : VariantExtractor) : bool :=
  existsb (fun tag => bool_decide (tag ∈ EXCLUDED_TEXT_TAGS)) (_stack self).

(** Truth value of an attribute value of type [str | None]. *)
Definition truthy (value : option str) : bool :=
  match value with
  | Some (_ :: _) => true
  | _ => false
  end.

Definition is_some (value : option str) : bool :=
  match value with
  | Some _ => true
  | None => false
  end.

(** [self.ids.add(value)] and [self.anchor_hrefs.add(value)] *)
Definition add_id (self : VariantExtractor) (value : str) : VariantExtractor :=
  {| _stack := _stack self; text_nodes := text_nodes self;
     ids := {[ value ]} ∪ ids self; anchor_hrefs := anchor_hrefs self |}.

Definition add_href (self : VariantExtractor) (value : str) : VariantExtractor :=
  {| _stack := _stack self; text_nodes := text_nodes self;
     ids := ids self; anchor_hrefs := {[ value ]} ∪ anchor_hrefs self |}.

(** The handler events of [HTMLParser] this class overrides;
    [handle_startendtag] is inherited and calls [handle_starttag] and then
    [handle_endtag], every other handler is inherited and does nothing. *)
Inductive event :=
| StartTag (tag : str) (attrs : list (str * option str))
| EndTag (tag : str)
| Text (data : str).

(** The loop of [handle_endtag]: [i] is the number of indices still to
    visit, the next one visited being [i - 1]. *)
Fixpoint endtag_loop (stack : list str) (tag : str) (i : nat) : list str :=
  match i with
  | O => stack
  | S j =>
      match stack !! j with
      | Some t => if decide (t = tag) then take j stack else endtag_loop stack tag j
      | None => endtag_loop stack tag j
      end
  end.

Section Extractor.

Variable lower : str -> str.

(** One iteration of the attribute loop of [handle_starttag]. *)
Definition handle_attr (tag : str) (in_svg_context : bool)
    (self : VariantExtractor) (attr : str * option str) : VariantExtractor :=
  let '(name, value) := attr in
  if decide (name = []) then self
  else
    let name_l := lower name in
    let self1 :=
      if bool_decide (name_l = u "id") && truthy value && negb in_svg_context
      then add_id self (default [] value)
      else self in
    if bool_decide (tag = u "a") && bool_decide (name_l = u "href") && is_some value
    then add_href self1 (default [] value)
    else self1.

Definition handle_starttag (self : VariantExtractor) (tag : str)
    (attrs : list (str * option str)) : VariantExtractor :=
  let tag := lower tag in
  let self := {| _stack := _stack self ++ [tag]; text_nodes := text_nodes self;
                 ids := ids self; anchor_hrefs := anchor_hrefs self |} in
  let in_svg_context := bool_decide (u "svg" ∈ _stack self) in
  fold_left (handle_attr tag in_svg_context) attrs self.

Definition handle_endtag (self : VariantExtractor) (tag : str) : VariantExtractor :=
  let tag := lower tag in
  {| _stack := endtag_loop (_stack self) tag (length (_stack self));
     text_nodes := text_nodes self; ids := ids self;
     anchor_hrefs := anchor_hrefs self |}.

Definition handle_data (self : VariantExtractor) (data : str) : VariantExtractor :=
  if _in_excluded_text_context self then self
  else
    let normalized := _normalize_text data in
    match normalized with
    | [] => self
    | _ :: _ =>
        {| _stack := _stack self; text_nodes := text_nodes self ++ [normalized];
           ids := ids self; anchor_hrefs := anchor_hrefs self |}
    end.

Definition handle (self : VariantExtractor) (e : event) : VariantExtractor :=
  match e with
  | StartTag tag attrs => handle_starttag self tag attrs
  | EndTag tag => handle_endtag self tag
  | Text data => handle_data self data
  end.

(** The handler calls made by [feed] and [close], in order. *)
Definition feed_events (self : VariantExtractor) (evs : list event) : VariantExtractor :=
  fold_left handle evs self.

End Extractor.

(** ** [collections.Counter] over text nodes

    A [Counter] is a [dict]: keys in insertion order, each key once. *)

Abbreviation counter := (list (str * nat)).

(** [self[elem] = self.get(elem, 0) + 1] *)
Fixpoint counter_incr (c : counter) (elem : str) : counter :=
  match c with
  | [] => [(elem, 1)]
  | (k, n) :: c' =>
      if decide (k = elem) then (k, S n) :: c' else (k, n) :: counter_incr c' elem
  end.

(** [Counter(iterable)] *)
Definition Counter (iterable : list str) : counter :=
  fold_left counter_incr iterable [].

(** [c[elem]]: the count, [0] for a missing key. *)
Fixpoint counter_get (c : counter) (elem : str) : nat :=
  match c with
  | [] => 0
  | (k, n) :: c' => if decide (k = elem) then n else counter_get c' elem
  end.

(** [Counter.__eq__]: equal counts on every key of either side, a missing
    key counting as zero. *)
Definition counter_eqb (c d : counter) : bool :=
  forallb (fun e => Nat.eqb (counter_get c e) (counter_get d e))
          (map fst c ++ map fst d).

(** [Counter.__sub__]: keeps the strictly positive differences, in the
    order of the left operand. Its second loop only adds keys whose count
    on the right is negative, which no count of text nodes is. *)
Fixpoint counter_sub (c d : counter) : counter :=
  match c with
  | [] => []
  | (elem, count) :: c' =>
      let newcount := count - counter_get d elem in
      if 0 <? newcount then (elem, newcount) :: counter_sub c' d
      else counter_sub c' d
  end.

(** Stable insertion by descending count: [x] stood before every element
    of [l] in the original order. *)
Fixpoint insert_desc (x : str * nat) (l : counter) : counter :=
  match l with
  | [] => [x]
  | y :: l' => if snd y <=? snd x then x :: l else y :: insert_desc x l'
  end.

(** [Counter.most_common(n)]: the [n] largest counts, ties in insertion
    order. *)
Definition most_common (n : nat) (c : counter) : counter :=
  take n (foldr insert_desc [] c).

(** ** Sorting strings *)

(** [a <= b] on [str]: lexicographic on code points. *)
Fixpoint str_leb (a b : str) : bool :=
  match a, b with
  | [], _ => true
  | _ :: _, [] => false
  | x :: a', y :: b' =>
      if (x <? y)%N then true
      else if (y <? x)%N then false
      else str_leb a' b'
  end.

(** [sorted(s)] for a set of strings. *)
Definition sorted (s : gset str) : list str :=
  merge_sort (fun a b => Is_true (str_leb a b)) (elements s).

(** ** The diagnostics *)

Abbreviation Path := (list N) (only parsing).

(** One constructor for each [print] call of the program. *)
Inductive line :=
| BaseNotFound (base : Path)
| VariantNotFound (variant : Path)
| TextMismatchUnordered
| TextMismatch
| BaseTextNodes (n : nat)
| VarTextNodes (n : nat)
| MissingTextTop
| ExtraTextTop
| CountedText (count : nat) (text : str)
| DiffPreview (entries : list (nat * str * str))
| IDSetMismatch
| MissingIDs (n : nat) (shown : list str)
| ExtraIDs (n : nat) (shown : list str)
| HrefSetMismatch
| MissingHrefs (n : nat) (shown : list str)
| ExtraHrefs (n : nat) (shown : list str)
| OK.

(** The loop of [_diff_preview] over the indices [idxs]; an entry stands
    for the two lines appended for one index. *)
Fixpoint diff_loop (a b : list str) (limit : nat) (idxs : list nat) (shown : nat)
    : list (nat * str * str) :=
  match idxs with
  | [] => []
  | i :: idxs' =>
      let av := default (u "<missing>") (a !! i) in
      let bv := default (u "<missing>") (b !! i) in
      if decide (av = bv) then diff_loop a b limit idxs' shown
      else
        (i, av, bv) ::
          (if limit <=? S shown then [] else diff_loop a b limit idxs' (S shown))
  end.

Definition _diff_preview (a b : list str) (limit : nat) : list (nat * str * str) :=
  let max_len := max (length a) (length b) in
  diff_loop a b limit (seq 0 max_len) 0.

(** ** Effects

    [main] touches the file system and the two output streams. A run is
    its trace of effects together with how it ended: a returned value, or
    the exception that ended it, which nothing catches. *)

(** An exception, by the name of its class and its arguments. *)
Inductive exn :=
| Exception (class_name : str) (args : str).

#[global] Instance exn_eq_dec : EqDecision exn.
Proof. solve_decision. Defined.

(** What the file system does with a path.
    - [Missing]: [Path.exists()] is [False] (its [stat] fails with ENOENT,
      ENOTDIR, EBADF or ELOOP, or the path cannot be encoded).
    - [Inaccessible e]: [Path.exists()] raises [e], any other [OSError] of
      [stat], such as ENAMETOOLONG, whether or not a file is there.
    - [Unreadable e]: [Path.exists()] is [True] and [Path.read_text] raises
      [e] (a directory, no permission, bytes that are not UTF-8).
    - [Contents text]: [Path.exists()] is [True] and [Path.read_text]
      returns [text]. *)
Inductive file :=
| Missing
| Inaccessible (e : exn)
| Unreadable (e : exn)
| Contents (text : str).

#[global] Instance file_eq_dec : EqDecision file.
Proof. solve_decision. Defined.

(** [Path.exists()] is [True]. *)
Definition present (f : file) : bool :=
  match f with
  | Unreadable _ | Contents _ => true
  | Missing | Inaccessible _ => false
  end.

Inductive effect :=
| Exists (p : Path)
| ReadText (p : Path)
| Feed (text : str)
| Stdout (l : line)
| Stderr (l : line).

Inductive outcome (A : Type) :=
| Returned (a : A)
| Raised (e : exn).
Arguments Returned {A} a.
Arguments Raised {A} e.

Definition io (A : Type) : Type := (list effect * outcome A)%type.

#[global] Instance io_ret : MRet io := fun A a => ([], Returned a).

#[global] Instance io_bind : MBind io := fun A B f m =>
  match m with
  | (t, Returned a) => let '(t', r) := f a in (t ++ t', r)
  | (t, Raised e) => (t, Raised e)
  end.

Definition print (l : line) : io unit := ([Stdout l], Returned tt).
Definition eprint (l : line) : io unit := ([Stderr l], Returned tt).

(** A [for] loop whose body is one [print(..., file=sys.stderr)]. *)
Definition eprint_each (ls : list line) : io unit := (map Stderr ls, Returned tt).

(** [if cond: body], for a body without a value. *)
Definition when (cond : bool) (body : io unit) : io unit :=
  if cond then body else mret tt.

Definition nonempty {A} (l : list A) : bool :=
  match l with
  | [] => false
  | _ :: _ => true
  end.

Definition counted (e : str * nat) : line := CountedText (snd e) (fst e).

Section Program.

Variable lower : str -> str.
Variable scan : str -> exn + list event.
Variable fs : Path -> file.

(** [Path.exists()]: [False] for a missing path, an exception for a path
    whose [stat] fails in another way. *)
Definition path_exists (p : Path) : io bool :=
  ([Exists p],
   match fs p with
   | Missing => Returned false
   | Inaccessible e => Raised e
   | Unreadable _ | Contents _ => Returned true
   end).

(** [Path.read_text(encoding="utf-8")]. [main] only calls it on a path
    whose existence check returned [True]. On a missing path it raises
    [FileNotFoundError], recorded here with the path as its argument; on
    an inaccessible one [open] fails as [stat] did. *)
Definition _read_text (path : Path) : io str :=
  ([ReadText path],
   match fs path with
   | Contents text => Returned text
   | Unreadable e | Inaccessible e => Raised e
   | Missing => Raised (Exception (u "FileNotFoundError") path)
   end).

(** [parser.feed(text); parser.close()] on a fresh parser: the handlers
    run on the events of the text, unless the parser raises; the extractor
    of a parse that raised is lost with it. *)
Definition feed (text : str) : io VariantExtractor :=
  ([Feed text],
   match scan text with
   | inl e => Raised e
   | inr evs => Returned (feed_events lower init evs)
   end).

Definition extract (path : Path) : io VariantExtractor :=
  text ← _read_text path;
  feed text.

(** Lines 119-145 of the program: the text check. *)
Definition check_text (unordered_text : bool) (base_ex var_ex : VariantExtractor)
    (ok : bool) : io bool :=
  if unordered_text then
    let base_counter := Counter (text_nodes base_ex) in
    let var_counter := Counter (text_nodes var_ex) in
    if negb (counter_eqb base_counter var_counter) then
      let missing := counter_sub base_counter var_counter in
      let extra := counter_sub var_counter base_counter in
      eprint TextMismatchUnordered;;
      eprint (BaseTextNodes (length (text_nodes base_ex)));;
      eprint (VarTextNodes (length (text_nodes var_ex)));;
      when (nonempty missing)
        (eprint MissingTextTop;;
         eprint_each (map counted (most_common 20 missing)));;
      when (nonempty extra)
        (eprint ExtraTextTop;;
         eprint_each (map counted (most_common 20 extra)));;
      mret false
    else mret ok
  else
    if negb (bool_decide (text_nodes base_ex = text_nodes var_ex)) then
      eprint TextMismatch;;
      eprint (BaseTextNodes (length (text_nodes base_ex)));;
      eprint (VarTextNodes (length (text_nodes var_ex)));;
      eprint (DiffPreview (_diff_preview (text_nodes base_ex) (text_nodes var_ex) 10));;
      mret false
    else mret ok.

(** Lines 147-155: the id check. *)
Definition check_ids (base_ex var_ex : VariantExtractor) (ok : bool) : io bool :=
  if negb (bool_decide (ids base_ex = ids var_ex)) then
    let missing := sorted (ids base_ex ∖ ids var_ex) in
    let extra := sorted (ids var_ex ∖ ids base_ex) in
    eprint IDSetMismatch;;
    when (nonempty missing) (eprint (MissingIDs (length missing) (take 30 missing)));;
    when (nonempty extra) (eprint (ExtraIDs (length extra) (take 30 extra)));;
    mret false
  else mret ok.

(** Lines 157-165: the anchor href check. *)
Definition check_hrefs (base_ex var_ex : VariantExtractor) (ok : bool) : io bool :=
  if negb (bool_decide (anchor_hrefs base_ex = anchor_hrefs var_ex)) then
    let missing := sorted (anchor_hrefs base_ex ∖ anchor_hrefs var_ex) in
    let extra := sorted (anchor_hrefs var_ex ∖ anchor_hrefs base_ex) in
    eprint HrefSetMismatch;;
    when (nonempty missing) (eprint (MissingHrefs (length missing) (take 30 missing)));;
    when (nonempty extra) (eprint (ExtraHrefs (length extra) (take 30 extra)));;
    mret false
  else mret ok.

(** Lines 117-171: everything [main] does once both extractions exist. *)
Definition compare (unordered_text : bool) (base_ex var_ex : VariantExtractor) : io Z :=
  let ok := true in
  ok ← check_text unordered_text base_ex var_ex ok;
  ok ← check_ids base_ex var_ex ok;
  ok ← check_hrefs base_ex var_ex ok;
  if (ok : bool) then print OK;; mret 0%Z
  else mret 1%Z.

(** [main], from the parsed arguments on. *)
Definition main (base variant : Path) (unordered_text : bool) : io Z :=
  b ← path_exists base;
  if negb b then eprint (BaseNotFound base);; mret 2%Z
  else
    v ← path_exists variant;
    if negb v then eprint (VariantNotFound variant);; mret 2%Z
    else
      base_ex ← extract base;
      var_ex ← extract variant;
      compare unordered_text base_ex var_ex.

End Program.

(** ** Instances used to run the model

    Every property below is proved for an arbitrary [lower] and [scan].
    To evaluate the model, [ascii_lower] is [str.lower] on ASCII strings,
    and [plain_scan] is the tokenizer on documents without markup or
    character references: the whole text comes as one data event.
    [probe_scan] adds one document with markup, [<![x]>], on which the
    parser raises: [parse_html_declaration] hands a text that starts with
    [<![] to [parse_marked_section], which raises [AssertionError] for a
    keyword that is none of temp, cdata, ignore, include, rcdata, if, else
    and endif (CPython 3.11). *)

Definition ascii_lower_char (c : N) : N :=
  if ((0x41 <=? c) && (c <=? 0x5A))%N then (c + 0x20)%N else c.

Definition ascii_lower (s : str) : str := map ascii_lower_char s.

Definition plain_scan (text : str) : exn + list event :=
  match text with
  | [] => inr []
  | _ :: _ => inr [Text text]
  end.

Definition MARKED_SECTION : str := u "<![x]>".

Definition MARKED_SECTION_ERROR : exn :=
  Exception (u "AssertionError") (u "unknown status keyword 'x' in marked section").

Definition probe_scan (text : str) : exn + list event :=
  if decide (text = MARKED_SECTION) then inl MARKED_SECTION_ERROR
  else plain_scan text.

(** ** Vocabulary of the properties *)

(** [spaced prev s]: every whitespace character of [s] is a single
    [SPACE] that follows a character that is not whitespace; [prev] says
    that the character before [s] was whitespace. *)
Fixpoint spaced (prev : bool) (s : str) : Prop :=
  match s with
  | [] => True
  | c :: rest =>
      if isspace c then c = SPACE /\ prev = false /\ spaced true rest
      else spaced false rest
  end.

(** No leading, no trailing whitespace. *)
Definition starts_clean (s : str) : Prop :=
  match s with
  | [] => True
  | c :: _ => isspace c = false
  end.

Definition ends_clean (s : str) : Prop := starts_clean (rev s).

(** Every whitespace character of [s] is one [SPACE] standing between two
    characters that are not whitespace. *)
Definition single_spaces (s : str) : Prop :=
  forall l1 c l2, s = l1 ++ c :: l2 -> isspace c = true ->
    c = SPACE /\
    (exists l1' a, l1 = l1' ++ [a] /\ isspace a = false) /\
    (exists b l2', l2 = b :: l2' /\ isspace b = false).

(** What a text node is expected to be. *)
Definition text_node_ok (s : str) : Prop :=
  s <> [] /\ _normalize_text s = s /\
  starts_clean s /\ ends_clean s /\ single_spaces s.

(** The tags of the excluded context, as the specification lists them. *)
Definition excluded_tag (tag : str) : Prop :=
  tag = u "script" \/ tag = u "style" \/ tag = u "svg" \/ tag = u "defs".

(** [v] is the value of an [id] attribute among [attrs] that is neither
    absent nor empty. *)
Definition id_value (lower : str -> str) (attrs : list (str * option str)) (v : str) : Prop :=
  exists name, (name, Some v) ∈ attrs /\ name <> [] /\ lower name = u "id" /\ v <> [].

(** [h] is the value of an [href] attribute among [attrs], present though
    possibly empty, and the lower-cased tag is [a]. *)
Definition href_value (lower : str -> str) (tag : str)
    (attrs : list (str * option str)) (h : str) : Prop :=
  tag = u "a" /\
  exists name, (name, Some h) ∈ attrs /\ name <> [] /\ lower name = u "href".

(** The handler calls for [<div id="x"></div><div id="x"></div>]. *)
Definition two_divs : list event :=
  [ StartTag (u "div") [(u "id", Some (u "x"))]; EndTag (u "div");
    StartTag (u "div") [(u "id", Some (u "x"))]; EndTag (u "div") ].

(** The two streams of a trace. *)
Definition stderr_of (t : list effect) : list line :=
  omap (fun e => match e with Stderr l => Some l | _ => None end) t.

Definition stdout_of (t : list effect) : list line :=
  omap (fun e => match e with Stdout l => Some l | _ => None end) t.


(** Lines of the text check. *)
Definition is_text_line (l : line) : bool :=
  match l with
  | TextMismatchUnordered | TextMismatch | BaseTextNodes _ | VarTextNodes _
  | MissingTextTop | ExtraTextTop | CountedText _ _ | DiffPreview _ => true
  | _ => false
  end.

Definition is_id_line (l : line) : bool :=
  match l with
  | IDSetMismatch | MissingIDs _ _ | ExtraIDs _ _ => true
  | _ => false
  end.

Definition is_href_line (l : line) : bool :=
  match l with
  | HrefSetMismatch | MissingHrefs _ _ | ExtraHrefs _ _ => true
  | _ => false
  end.

(** A trace that only writes lines of one kind to standard error. *)
Definition only_stderr (kind : line -> bool) (t : list effect) : Prop :=
  Forall (fun e => match e with Stderr l => kind l = true | _ => False end) t.

(** A file system given by the files it holds. *)
Fixpoint files (l : list (Path * str)) (p : Path) : file :=
  match l with
  | [] => Missing
  | (q, text) :: l' => if decide (q = p) then Contents text else files l' p
  end.

(** The three checks, as the specification words them. *)
Definition text_passes (unordered_text : bool) (b v : VariantExtractor) : Prop :=
  if unordered_text then Permutation (text_nodes b) (text_nodes v)
  else text_nodes b = text_nodes v.

Definition ids_pass (b v : VariantExtractor) : Prop := ids b = ids v.

Definition hrefs_pass (b v : VariantExtractor) : Prop :=
  anchor_hrefs b = anchor_hrefs v.

(** All three checks pass. *)
Definition all_pass (unordered_text : bool) (b v : VariantExtractor) : Prop :=
  text_passes unordered_text b v /\ ids_pass b v /\ hrefs_pass b v.


(** Occurrences of a string in a list. *)
Abbreviation count l k := (count_occ (fun x y : str => decide (x = y)) l k).

(** The conditions [main] tests, as booleans. *)
Definition text_okb (unordered_text : bool) (b v : VariantExtractor) : bool :=
  if unordered_text
  then counter_eqb (Counter (text_nodes b)) (Counter (text_nodes v))
  else bool_decide (text_nodes b = text_nodes v).

Definition verdict (uo : bool) (b v : VariantExtractor) : bool :=
  text_okb uo b v && bool_decide (ids b = ids v)
  && bool_decide (anchor_hrefs b = anchor_hrefs v).

(** ** Vocabulary of the further properties *)

(** Characters that are not whitespace. *)
Definition nonspace (c : N) : bool := negb (isspace c).

(** The placeholder [_diff_preview] shows for an index out of range. *)
Definition MISSING : str := u "<missing>".

(** What [_diff_preview] shows of [a] at index [i]. *)
Definition shown_at (a : list str) (i : nat) : str := default MISSING (a !! i).

(** [a <= b] on strings, as a relation. *)
Definition str_le (a b : str) : Prop := Is_true (str_leb a b).

(** Descending order of counts. *)
Definition count_ge (x y : str * nat) : Prop := snd y <= snd x.

(** Index [i] is one where the two sequences show different values. *)
Definition differs (a b : list str) (i : nat) : bool :=
  negb (bool_decide (shown_at a i = shown_at b i)).

(** The entry [_diff_preview] appends for index [i]. *)
Definition preview_entry (a b : list str) (i : nat) : nat * str * str :=
  (i, shown_at a i, shown_at b i).

(** [all] is the ascending listing of the set [X]: in ascending order,
    without repetition, holding exactly the elements of [X]. A set has
    one such listing. *)
Definition ascending_listing (X : gset str) (all : list str) : Prop :=
  StronglySorted str_le all /\ NoDup all /\ forall x, x ∈ all <-> x ∈ X.

(** How the id and href checks list a non-empty set of strings [X]: the
    true number of elements, and the first thirty entries of its ascending
    listing. *)
Definition listing (X : gset str) (n : nat) (shown : list str) : Prop :=
  n = size X /\ 0 < n /\
  exists all, ascending_listing X all /\ length all = n /\ shown = take 30 all.

(** One section of the unordered text report: a heading and the twenty
    most common entries of [c], or nothing when [c] is empty. *)
Definition text_section (heading : line) (c : counter) : list effect :=
  if nonempty c
  then Stderr heading :: map Stderr (map counted (most_common 20 c))
  else [].

(** * Properties *)

(** ** Normalization *)

Lemma sub_ws_spaced b s : spaced b (sub_ws b s).
Proof.
  revert b. induction s as [|c s IH]; intros b; simpl; [exact I|].
  destruct (isspace c) eqn:Hc.
  - destruct b; [apply IH|]. simpl.
    change (isspace SPACE) with true. cbv iota. repeat split. apply IH.
  - simpl. rewrite Hc. apply IH.
Qed.

Lemma spaced_sub_ws b s : spaced b s -> sub_ws b s = s.
Proof.
  revert b. induction s as [|c s IH]; intros b; simpl; [reflexivity|].
  destruct (isspace c) eqn:Hc.
  - intros (-> & -> & Hs). f_equal. apply IH, Hs.
  - intros Hs. f_equal. apply IH, Hs.
Qed.

Lemma spaced_app_l b s w : spaced b (s ++ w) -> spaced b s.
Proof.
  revert b. induction s as [|c s IH]; intros b; simpl; [tauto|].
  destruct (isspace c).
  - intros (? & ? & ?). repeat split; auto.
  - apply IH.
Qed.

Lemma lstrip_spaced b s : spaced b s -> spaced false (lstrip s).
Proof.
  revert b. induction s as [|c s IH]; intros b; simpl; [tauto|].
  destruct (isspace c) eqn:Hc.
  - intros (_ & _ & Hs). eapply IH, Hs.
  - intros Hs. simpl. rewrite Hc. exact Hs.
Qed.

Lemma lstrip_starts_clean s : starts_clean (lstrip s).
Proof.
  induction s as [|c s IH]; simpl; [exact I|].
  destruct (isspace c) eqn:Hc; [exact IH|exact Hc].
Qed.

Lemma lstrip_clean s : starts_clean s -> lstrip s = s.
Proof. destruct s as [|c s]; simpl; [reflexivity|]. intros ->. reflexivity. Qed.

(** [lstrip] removes a prefix, [rstrip] a suffix. *)
Lemma lstrip_suffix s : exists w, s = w ++ lstrip s.
Proof.
  induction s as [|c s [w IH]]; simpl; [exists []; reflexivity|].
  destruct (isspace c).
  - exists (c :: w). simpl. f_equal. exact IH.
  - exists []. reflexivity.
Qed.

Lemma rstrip_prefix s : exists w, s = rstrip s ++ w.
Proof.
  unfold rstrip. destruct (lstrip_suffix (rev s)) as [w Hw].
  exists (rev w). rewrite <- rev_app_distr, <- Hw, rev_involutive. reflexivity.
Qed.

Lemma rstrip_clean s : ends_clean s -> rstrip s = s.
Proof.
  unfold ends_clean, rstrip. intros H. rewrite lstrip_clean by exact H.
  apply rev_involutive.
Qed.

(** What [_normalize_text] returns. *)
Lemma normalize_shape s :
  spaced false (_normalize_text s) /\
  starts_clean (_normalize_text s) /\
  ends_clean (_normalize_text s).
Proof.
  unfold _normalize_text, strip.
  destruct (rstrip_prefix (lstrip (sub_ws false s))) as [w Hw].
  split; [|split].
  - pose proof (lstrip_spaced _ _ (sub_ws_spaced false s)) as H.
    rewrite Hw in H. eapply spaced_app_l, H.
  - pose proof (lstrip_starts_clean (sub_ws false s)) as H. rewrite Hw in H.
    destruct (rstrip (lstrip (sub_ws false s))); [exact I|exact H].
  - unfold ends_clean, rstrip. rewrite rev_involutive. apply lstrip_starts_clean.
Qed.

(** A string of that shape is left alone. *)
Lemma normalize_fixed s :
  spaced false s -> starts_clean s -> ends_clean s -> _normalize_text s = s.
Proof.
  intros Hs Hl Hr. unfold _normalize_text, strip.
  rewrite (spaced_sub_ws _ _ Hs), (lstrip_clean _ Hl), (rstrip_clean _ Hr).
  reflexivity.
Qed.

(** Around a whitespace character of a spaced string. *)
Lemma spaced_split l1 : forall b c l2,
  spaced b (l1 ++ c :: l2) -> isspace c = true ->
  c = SPACE /\ spaced true l2 /\
  match last l1 with
  | None => b = false
  | Some a => isspace a = false
  end.
Proof.
  induction l1 as [|x l1 IH]; intros b c l2; simpl.
  - intros H Hc. rewrite Hc in H. tauto.
  - intros H Hc. rewrite last_cons.
    destruct (isspace x) eqn:Hx.
    + destruct H as (_ & _ & H). destruct (IH _ _ _ H Hc) as (? & ? & Hl).
      destruct (last l1); [auto|discriminate].
    + destruct (IH _ _ _ H Hc) as (? & ? & Hl).
      destruct (last l1); auto.
Qed.

Lemma spaced_single_spaces s :
  spaced false s -> starts_clean s -> ends_clean s -> single_spaces s.
Proof.
  intros Hs Hl Hr l1 c l2 -> Hc.
  destruct (spaced_split _ _ _ _ Hs Hc) as (HS & Hs2 & Hlast).
  split; [exact HS|]. split.
  - destruct (last l1) as [a|] eqn:E.
    + apply last_Some in E as [l1' ->]. eauto.
    + apply last_None in E as ->. simpl in Hl. congruence.
  - destruct l2 as [|b l2'].
    + unfold ends_clean in Hr. rewrite rev_app_distr in Hr. simpl in Hr. congruence.
    + exists b, l2'. split; [reflexivity|]. simpl in Hs2.
      destruct (isspace b); [|reflexivity]. destruct Hs2 as (_ & ? & _). discriminate.
Qed.

Lemma normalize_text_node_ok s :
  _normalize_text s <> [] -> text_node_ok (_normalize_text s).
Proof.
  intros Hne. destruct (normalize_shape s) as (Hs & Hl & Hr).
  split; [exact Hne|]. split; [apply normalize_fixed; assumption|].
  split; [exact Hl|]. split; [exact Hr|].
  apply spaced_single_spaces; assumption.
Qed.

(** C9: normalizing a string twice yields the same result as normalizing
    it once. *)
Theorem normalize_text_idempotent (s : str) :
  _normalize_text (_normalize_text s) = _normalize_text s.
Proof.
  destruct (normalize_shape s) as (Hs & Hl & Hr).
  apply normalize_fixed; assumption.
Qed.

(** ** The extractor *)

(** The excluded context, read off the stack. *)
Lemma in_excluded_text_context_true self :
  _in_excluded_text_context self = true <->
  exists tag, tag ∈ _stack self /\ excluded_tag tag.
Proof.
  unfold _in_excluded_text_context, excluded_tag, EXCLUDED_TEXT_TAGS.
  rewrite existsb_exists. split.
  - intros (tag & Hin & Hd). exists tag. apply list_elem_of_In in Hin.
    apply bool_decide_eq_true in Hd. split; [exact Hin|].
    rewrite !elem_of_union, !elem_of_singleton in Hd. tauto.
  - intros (tag & Hin & Hd). exists tag. apply list_elem_of_In in Hin.
    split; [exact Hin|]. apply bool_decide_eq_true.
    rewrite !elem_of_union, !elem_of_singleton. tauto.
Qed.

Lemma handle_data_excluded self data :
  _in_excluded_text_context self = true -> handle_data self data = self.
Proof. unfold handle_data. intros ->. reflexivity. Qed.

(** *** The end-tag loop *)

Lemma endtag_loop_absent stack tag i :
  tag ∉ stack -> endtag_loop stack tag i = stack.
Proof.
  intros Hnot. induction i as [|j IH]; simpl; [reflexivity|].
  destruct (stack !! j) as [t|] eqn:E; [|exact IH].
  destruct (decide (t = tag)) as [->|_]; [|exact IH].
  exfalso. apply Hnot. eapply list_elem_of_lookup_2, E.
Qed.

Lemma endtag_loop_found pre tag post i :
  tag ∉ post -> length pre < i ->
  endtag_loop (pre ++ tag :: post) tag i = pre.
Proof.
  intros Hnot. induction i as [|j IH]; intros Hi; [lia|]. simpl.
  destruct (decide (j = length pre)) as [->|Hj].
  - rewrite list_lookup_middle by reflexivity.
    rewrite decide_True by reflexivity.
    rewrite take_app_length. reflexivity.
  - destruct ((pre ++ tag :: post) !! j) as [t|] eqn:E; [|apply IH; lia].
    destruct (decide (t = tag)) as [->|_]; [|apply IH; lia].
    exfalso. apply Hnot.
    rewrite lookup_app_r in E by lia.
    destruct (j - length pre) as [|k] eqn:Ek; [lia|]. simpl in E.
    eapply list_elem_of_lookup_2, E.
Qed.

Section ExtractorFacts.

Variable lower : str -> str.

Lemma feed_events_app self evs1 evs2 :
  feed_events lower self (evs1 ++ evs2) =
  feed_events lower (feed_events lower self evs1) evs2.
Proof. unfold feed_events. apply fold_left_app. Qed.

Lemma feed_events_snoc self evs e :
  feed_events lower self (evs ++ [e]) = handle lower (feed_events lower self evs) e.
Proof. rewrite feed_events_app. reflexivity. Qed.

(** *** The attribute loop *)

Lemma handle_attr_stack tag svg self attr :
  _stack (handle_attr lower tag svg self attr) = _stack self.
Proof.
  destruct attr as [name value]. unfold handle_attr.
  repeat case_match; reflexivity.
Qed.

Lemma handle_attr_text_nodes tag svg self attr :
  text_nodes (handle_attr lower tag svg self attr) = text_nodes self.
Proof.
  destruct attr as [name value]. unfold handle_attr.
  repeat case_match; reflexivity.
Qed.

Lemma attrs_stack tag svg attrs : forall self,
  _stack (fold_left (handle_attr lower tag svg) attrs self) = _stack self.
Proof.
  induction attrs as [|a attrs IH]; intros self; simpl; [reflexivity|].
  rewrite IH. apply handle_attr_stack.
Qed.

Lemma attrs_text_nodes tag svg attrs : forall self,
  text_nodes (fold_left (handle_attr lower tag svg) attrs self) = text_nodes self.
Proof.
  induction attrs as [|a attrs IH]; intros self; simpl; [reflexivity|].
  rewrite IH. apply handle_attr_text_nodes.
Qed.

Lemma handle_attr_ids_svg tag self attr :
  ids (handle_attr lower tag true self attr) = ids self.
Proof.
  destruct attr as [name value]. unfold handle_attr.
  rewrite andb_false_r. repeat case_match; reflexivity.
Qed.

Lemma handle_attr_ids tag self attr v :
  v ∈ ids (handle_attr lower tag false self attr) <->
  v ∈ ids self \/ id_value lower [attr] v.
Proof.
  destruct attr as [name value]. unfold handle_attr, id_value.
  destruct (decide (name = [])) as [->|Hname].
  { split; [auto|]. intros [?|(n & Hin & Hn & _)]; [assumption|].
    apply list_elem_of_singleton in Hin. congruence. }
  rewrite andb_true_r.
  assert (Hids : forall s,
    ids (if bool_decide (tag = u "a") && bool_decide (lower name = u "href")
            && is_some value
         then add_href s (default [] value) else s) = ids s).
  { intros s. case_match; reflexivity. }
  rewrite Hids. clear Hids.
  destruct (bool_decide (lower name = u "id")) eqn:Hid; simpl.
  - apply bool_decide_eq_true in Hid.
    destruct value as [[|c w]|]; simpl.
    + split; [auto|]. intros [?|(n & Hin & _ & _ & Hv)]; [assumption|].
      apply list_elem_of_singleton in Hin. congruence.
    + rewrite elem_of_union, elem_of_singleton. split.
      * intros [->|?]; [|auto]. right. exists name.
        split; [apply list_elem_of_singleton; reflexivity|]. auto.
      * intros [?|(n & Hin & _)]; [auto|].
        apply list_elem_of_singleton in Hin. left. congruence.
    + split; [auto|]. intros [?|(n & Hin & _)]; [assumption|].
      apply list_elem_of_singleton in Hin. congruence.
  - apply bool_decide_eq_false in Hid.
    split; [auto|]. intros [?|(n & Hin & _ & Hn & _)]; [assumption|].
    apply list_elem_of_singleton in Hin.
    assert (n = name) as -> by congruence. contradiction.
Qed.

Lemma id_value_cons attr attrs v :
  id_value lower (attr :: attrs) v <->
  id_value lower [attr] v \/ id_value lower attrs v.
Proof.
  unfold id_value. split.
  - intros (n & Hin & H). apply elem_of_cons in Hin as [Hin|Hin].
    + left. exists n. split; [|exact H]. apply list_elem_of_singleton. exact Hin.
    + right. exists n. auto.
  - intros [(n & Hin & H)|(n & Hin & H)]; exists n; (split; [|exact H]).
    + apply list_elem_of_singleton in Hin. rewrite Hin. apply elem_of_cons. auto.
    + apply elem_of_cons. auto.
Qed.

Lemma attrs_ids_svg tag attrs : forall self,
  ids (fold_left (handle_attr lower tag true) attrs self) = ids self.
Proof.
  induction attrs as [|a attrs IH]; intros self; simpl; [reflexivity|].
  rewrite IH. apply handle_attr_ids_svg.
Qed.

Lemma attrs_ids tag attrs v : forall self,
  v ∈ ids (fold_left (handle_attr lower tag false) attrs self) <->
  v ∈ ids self \/ id_value lower attrs v.
Proof.
  induction attrs as [|a attrs IH]; intros self; simpl.
  - split; [auto|]. intros [?|(n & Hin & _)]; [assumption|].
    apply elem_of_nil in Hin. contradiction.
  - rewrite IH, handle_attr_ids, (id_value_cons a attrs). tauto.
Qed.

Lemma handle_starttag_stack self tag attrs :
  _stack (handle_starttag lower self tag attrs) = _stack self ++ [lower tag].
Proof. unfold handle_starttag. rewrite attrs_stack. reflexivity. Qed.

Lemma handle_starttag_text_nodes self tag attrs :
  text_nodes (handle_starttag lower self tag attrs) = text_nodes self.
Proof. unfold handle_starttag. rewrite attrs_text_nodes. reflexivity. Qed.

Lemma handle_starttag_ids_svg self tag attrs :
  u "svg" ∈ (_stack self ++ [lower tag]) ->
  ids (handle_starttag lower self tag attrs) = ids self.
Proof.
  intros H. unfold handle_starttag. cbn [_stack].
  rewrite (bool_decide_eq_true_2 _ H), attrs_ids_svg. reflexivity.
Qed.

Lemma handle_starttag_ids self tag attrs v :
  u "svg" ∉ (_stack self ++ [lower tag]) ->
  v ∈ ids (handle_starttag lower self tag attrs) <->
  v ∈ ids self \/ id_value lower attrs v.
Proof.
  intros H. unfold handle_starttag. cbn [_stack].
  rewrite (bool_decide_eq_false_2 _ H), attrs_ids. reflexivity.
Qed.

End ExtractorFacts.

(** *** Text in an excluded context *)

(** C1: a text chunk that arrives while a tag of the excluded-context set
    ([script], [style], [svg], [defs]) is on the nesting stack is discarded
    entirely: the handler leaves the extractor as it was, and the result of
    the whole document is the result of the document without that chunk. *)
Theorem excluded_text_discarded (lower : str -> str) (self : VariantExtractor)
    (pre post : list event) (data tag : str) :
  tag ∈ _stack (feed_events lower self pre) ->
  excluded_tag tag ->
  handle_data (feed_events lower self pre) data = feed_events lower self pre /\
  feed_events lower self (pre ++ Text data :: post) =
    feed_events lower self (pre ++ post).
Proof.
  intros Hin Hex.
  assert (H : handle_data (feed_events lower self pre) data
              = feed_events lower self pre).
  { apply handle_data_excluded.
    apply in_excluded_text_context_true.
    exists tag. split; assumption. }
  split; [exact H|].
  rewrite !feed_events_app. change (Text data :: post) with ([Text data] ++ post).
  rewrite feed_events_app. unfold feed_events at 2. simpl. rewrite H. reflexivity.
Qed.

Lemma excluded_text_discarded_witness :
  u "style" ∈ _stack (feed_events ascii_lower init
                        [StartTag (u "div") []; StartTag (u "STYLE") []]) /\
  excluded_tag (u "style") /\
  text_nodes (feed_events ascii_lower init
    ([StartTag (u "div") []; StartTag (u "STYLE") []]
       ++ Text (u "p { color: red }") :: [EndTag (u "style"); Text (u "Hello")]))
  = [u "Hello"].
Proof.
  split; [|split].
  - vm_compute. apply list_elem_of_In. simpl. tauto.
  - unfold excluded_tag. tauto.
  - rewrite (proj2 (excluded_text_discarded ascii_lower init
               [StartTag (u "div") []; StartTag (u "STYLE") []]
               [EndTag (u "style"); Text (u "Hello")]
               (u "p { color: red }") (u "style")
               ltac:(vm_compute; apply list_elem_of_In; simpl; tauto)
               ltac:(unfold excluded_tag; tauto))).
    vm_compute. reflexivity.
Defined.

(** X7: every text node of a document is the normalization of a data
    event that arrived outside the excluded context. *)
Lemma text_nodes_origin (lower : str -> str) (evs : list event) (s : str) :
  s ∈ text_nodes (feed_events lower init evs) ->
  exists pre data post,
    evs = pre ++ Text data :: post /\
    _in_excluded_text_context (feed_events lower init pre) = false /\
    s = _normalize_text data.
Proof.
  induction evs as [|e evs IH] using rev_ind.
  - intros H. apply elem_of_nil in H. contradiction.
  - rewrite feed_events_snoc.
    assert (Hold : s ∈ text_nodes (feed_events lower init evs) ->
      exists pre data post, evs ++ [e] = pre ++ Text data :: post /\
        _in_excluded_text_context (feed_events lower init pre) = false /\
        s = _normalize_text data).
    { intros H. destruct (IH H) as (pre & data & post & -> & Hx & Hs).
      exists pre, data, (post ++ [e]). rewrite <- app_assoc. auto. }
    destruct e as [tag attrs|tag|data]; simpl.
    + rewrite handle_starttag_text_nodes. exact Hold.
    + exact Hold.
    + unfold handle_data.
      destruct (_in_excluded_text_context (feed_events lower init evs)) eqn:Hx;
        [exact Hold|].
      destruct (_normalize_text data) as [|c w] eqn:Hn; [exact Hold|].
      simpl. rewrite elem_of_app, list_elem_of_singleton.
      intros [H| ->]; [auto|]. exists evs, data, []. auto.
Qed.

(** *** Ids and the svg context *)

(** C2: on a start tag whose stack, after the element itself is pushed,
    contains [svg], no [id] attribute is added to [ids]; on a start tag
    whose stack then holds no [svg], [ids] gains exactly the values of the
    [id] attributes that are neither absent nor empty. *)
Theorem svg_scoped_ids (lower : str -> str) (self : VariantExtractor)
    (tag : str) (attrs : list (str * option str)) :
  _stack (handle_starttag lower self tag attrs) = _stack self ++ [lower tag] /\
  (u "svg" ∈ (_stack self ++ [lower tag]) ->
     ids (handle_starttag lower self tag attrs) = ids self) /\
  (u "svg" ∉ (_stack self ++ [lower tag]) ->
     forall v, v ∈ ids (handle_starttag lower self tag attrs) <->
               v ∈ ids self \/ id_value lower attrs v).
Proof.
  split; [apply handle_starttag_stack|]. split.
  - apply handle_starttag_ids_svg.
  - intros H v. apply handle_starttag_ids, H.
Qed.

Lemma svg_scoped_ids_witness :
  ids (handle_starttag ascii_lower
         (feed_events ascii_lower init [StartTag (u "svg") [(u "id", Some (u "icon"))]])
         (u "path") [(u "ID", Some (u "p1"))]) = ∅ /\
  u "hero" ∈ ids (handle_starttag ascii_lower init (u "div")
                    [(u "Id", Some (u "hero")); (u "id", Some []); (u "id", None)]).
Proof.
  split.
  - rewrite (proj1 (proj2 (svg_scoped_ids ascii_lower _ _ _))).
    + vm_compute. reflexivity.
    + vm_compute. apply list_elem_of_In. simpl. tauto.
  - apply (proj2 (proj2 (svg_scoped_ids ascii_lower init (u "div") _))).
    + vm_compute. intros H. apply list_elem_of_In in H. simpl in H.
      intuition discriminate.
    + right. exists (u "Id"). split; [apply list_elem_of_here|].
      repeat split; discriminate.
Defined.

Lemma snoc_eq_middle {A} (evs : list A) e pre x post :
  evs ++ [e] = pre ++ x :: post ->
  (post = [] /\ pre = evs /\ x = e) \/
  (exists post', post = post' ++ [e] /\ evs = pre ++ x :: post').
Proof.
  destruct post as [|y post _] using rev_ind.
  - intros H. apply app_inj_tail in H as [-> ->]. auto.
  - intros H. right. exists post.
    change (pre ++ x :: post ++ [y]) with (pre ++ (x :: post) ++ [y]) in H.
    rewrite app_assoc in H. apply app_inj_tail in H as [-> ->]. auto.
Qed.

(** X6: the ids of a whole document are exactly the present, non-empty
    [id] values of the start tags whose stack, once the element is pushed,
    holds no svg. *)
Lemma document_ids (lower : str -> str) (evs : list event) (v : str) :
  v ∈ ids (feed_events lower init evs) <->
  exists pre tag attrs post,
    evs = pre ++ StartTag tag attrs :: post /\
    (u "svg" ∉ _stack (feed_events lower init pre) ++ [lower tag]) /\
    id_value lower attrs v.
Proof.
  induction evs as [|e evs IH] using rev_ind.
  - split.
    + intros H. apply not_elem_of_empty in H. contradiction.
    + intros (pre & tag & attrs & post & H & _). destruct pre; discriminate.
  - rewrite feed_events_snoc.
    assert (Hkeep : ids (handle lower (feed_events lower init evs) e)
                    = ids (feed_events lower init evs) ->
      (forall tag attrs, e = StartTag tag attrs ->
         u "svg" ∈ (_stack (feed_events lower init evs) ++ [lower tag])) ->
      v ∈ ids (handle lower (feed_events lower init evs) e) <->
      exists pre tag attrs post,
        evs ++ [e] = pre ++ StartTag tag attrs :: post /\
        (u "svg" ∉ _stack (feed_events lower init pre) ++ [lower tag]) /\
        id_value lower attrs v).
    { intros -> Hsvg. rewrite IH. split.
      - intros (pre & tag & attrs & post & -> & H).
        exists pre, tag, attrs, (post ++ [e]). rewrite <- app_assoc. auto.
      - intros (pre & tag & attrs & post & Heq & Hn & Hv).
        apply snoc_eq_middle in Heq as [(-> & -> & <-)|(post' & -> & ->)].
        + exfalso. apply Hn. eapply Hsvg. reflexivity.
        + eauto 10. }
    destruct e as [tag attrs|tag|data].
    + simpl.
      destruct (decide (u "svg" ∈ (_stack (feed_events lower init evs) ++ [lower tag])))
        as [Hsvg|Hsvg].
      * apply Hkeep; [apply handle_starttag_ids_svg, Hsvg|].
        intros ? ? [= <- <-]. exact Hsvg.
      * rewrite (handle_starttag_ids _ _ _ _ _ Hsvg), IH. split.
        -- intros [(pre & t & a & post & -> & H)|Hv].
           ++ exists pre, t, a, (post ++ [StartTag tag attrs]).
              rewrite <- app_assoc. auto.
           ++ exists evs, tag, attrs, []. auto.
        -- intros (pre & t & a & post & Heq & Hn & Hv).
           apply snoc_eq_middle in Heq as [(-> & -> & [= -> ->])|(post' & -> & ->)].
           ++ auto.
           ++ left. eauto 10.
    + apply Hkeep; [reflexivity|discriminate].
    + apply Hkeep; [|discriminate]. simpl. unfold handle_data.
      repeat case_match; reflexivity.
Qed.

(** *** Sets of ids and hrefs *)

Section HrefFacts.

Variable lower : str -> str.

Lemma handle_attr_hrefs tag svg self attr h :
  h ∈ anchor_hrefs (handle_attr lower tag svg self attr) <->
  h ∈ anchor_hrefs self \/ href_value lower tag [attr] h.
Proof.
  destruct attr as [name value]. unfold handle_attr, href_value.
  destruct (decide (name = [])) as [->|Hname].
  { split; [auto|]. intros [?|(_ & n & Hin & Hn & _)]; [assumption|].
    apply list_elem_of_singleton in Hin. congruence. }
  set (self1 := if bool_decide (lower name = u "id") && truthy value && negb svg
                then add_id self (default [] value) else self).
  assert (H1 : anchor_hrefs self1 = anchor_hrefs self).
  { unfold self1. case_match; reflexivity. }
  destruct (bool_decide (tag = u "a")) eqn:Ha; simpl.
  - apply bool_decide_eq_true in Ha.
    destruct (bool_decide (lower name = u "href")) eqn:Hh; simpl.
    + apply bool_decide_eq_true in Hh. destruct value as [w|]; simpl.
      * rewrite elem_of_union, elem_of_singleton, H1. split.
        -- intros [->|?]; [|auto]. right. split; [exact Ha|]. exists name.
           split; [apply list_elem_of_singleton; reflexivity|]. auto.
        -- intros [?|(_ & n & Hin & _)]; [auto|].
           apply list_elem_of_singleton in Hin. left. congruence.
      * rewrite H1. split; [auto|]. intros [?|(_ & n & Hin & _)]; [assumption|].
        apply list_elem_of_singleton in Hin. congruence.
    + apply bool_decide_eq_false in Hh. rewrite H1.
      split; [auto|]. intros [?|(_ & n & Hin & _ & Hn)]; [assumption|].
      apply list_elem_of_singleton in Hin.
      assert (n = name) as -> by congruence. contradiction.
  - apply bool_decide_eq_false in Ha. rewrite H1.
    split; [auto|]. intros [?|(? & _)]; [assumption|contradiction].
Qed.

Lemma href_value_cons tag attr attrs h :
  href_value lower tag (attr :: attrs) h <->
  href_value lower tag [attr] h \/ href_value lower tag attrs h.
Proof.
  unfold href_value. split.
  - intros (Ha & n & Hin & H). apply elem_of_cons in Hin as [Hin|Hin].
    + left. split; [exact Ha|]. exists n. split; [|exact H].
      apply list_elem_of_singleton. exact Hin.
    + right. split; [exact Ha|]. exists n. auto.
  - intros [(Ha & n & Hin & H)|(Ha & n & Hin & H)];
      (split; [exact Ha|]); exists n; (split; [|exact H]).
    + apply list_elem_of_singleton in Hin. rewrite Hin. apply elem_of_cons. auto.
    + apply elem_of_cons. auto.
Qed.

Lemma attrs_hrefs tag svg attrs h : forall self,
  h ∈ anchor_hrefs (fold_left (handle_attr lower tag svg) attrs self) <->
  h ∈ anchor_hrefs self \/ href_value lower tag attrs h.
Proof.
  induction attrs as [|a attrs IH]; intros self; simpl.
  - split; [auto|]. intros [?|(_ & n & Hin & _)]; [assumption|].
    apply elem_of_nil in Hin. contradiction.
  - rewrite IH, handle_attr_hrefs, (href_value_cons tag a attrs). tauto.
Qed.

Lemma handle_starttag_hrefs self tag attrs h :
  h ∈ anchor_hrefs (handle_starttag lower self tag attrs) <->
  h ∈ anchor_hrefs self \/ href_value lower (lower tag) attrs h.
Proof. unfold handle_starttag. rewrite attrs_hrefs. reflexivity. Qed.

End HrefFacts.

(** C7: [ids] and [anchor_hrefs] are sets. Adding a value that is already
    present leaves the set and its cardinality unchanged; a start tag all of
    whose [id] values (all of whose [a href] values) are already present
    leaves [ids] ([anchor_hrefs]) unchanged; and the document
    [<div id="x"></div><div id="x"></div>] yields [ids = {"x"}]. *)
Theorem duplicates_collapse (lower : str -> str) (self : VariantExtractor)
    (tag : str) (attrs : list (str * option str)) (v : str) :
  (v ∈ ids self ->
     ids (add_id self v) = ids self /\
     size (ids (add_id self v)) = size (ids self)) /\
  (v ∈ anchor_hrefs self ->
     anchor_hrefs (add_href self v) = anchor_hrefs self /\
     size (anchor_hrefs (add_href self v)) = size (anchor_hrefs self)) /\
  ((forall w, id_value lower attrs w -> w ∈ ids self) ->
     ids (handle_starttag lower self tag attrs) = ids self) /\
  ((forall h, href_value lower (lower tag) attrs h -> h ∈ anchor_hrefs self) ->
     anchor_hrefs (handle_starttag lower self tag attrs) = anchor_hrefs self) /\
  (lower (u "div") = u "div" -> lower (u "id") = u "id" ->
     ids (feed_events lower init two_divs) = {[ u "x" ]}).
Proof.
  assert (Hid : v ∈ ids self -> ids (add_id self v) = ids self).
  { intros H. apply set_eq. intros w. simpl.
    rewrite elem_of_union, elem_of_singleton. split; [intros [->|?]|]; auto. }
  assert (Hhr : v ∈ anchor_hrefs self -> anchor_hrefs (add_href self v) = anchor_hrefs self).
  { intros H. apply set_eq. intros w. simpl.
    rewrite elem_of_union, elem_of_singleton. split; [intros [->|?]|]; auto. }
  split; [intros H; rewrite (Hid H); auto|].
  split; [intros H; rewrite (Hhr H); auto|].
  split; [|split].
  - intros H.
    destruct (decide (u "svg" ∈ _stack self ++ [lower tag])) as [Hsvg|Hsvg].
    + apply handle_starttag_ids_svg, Hsvg.
    + apply set_eq. intros w. rewrite (handle_starttag_ids _ _ _ _ _ Hsvg).
      split; [intros [?|?]|]; auto.
  - intros H. apply set_eq. intros h. rewrite handle_starttag_hrefs.
    split; [intros [?|?]|]; auto.
  - intros Hdiv Hidn. unfold feed_events, two_divs. cbn [fold_left handle].
    unfold handle_starttag, handle_endtag. cbn [fold_left handle_attr _stack].
    rewrite ?Hdiv, ?Hidn. vm_compute. reflexivity.
Qed.

Lemma duplicates_collapse_witness :
  ids (add_id (feed_events ascii_lower init two_divs) (u "x"))
    = ids (feed_events ascii_lower init two_divs) /\
  ids (feed_events ascii_lower init two_divs) = {[ u "x" ]} /\
  size (ids (feed_events ascii_lower init two_divs)) = 1.
Proof.
  pose proof (duplicates_collapse ascii_lower (feed_events ascii_lower init two_divs)
                (u "div") [] (u "x")) as (Hadd & _ & _ & _ & Hdoc).
  assert (Hx : ids (feed_events ascii_lower init two_divs) = {[ u "x" ]}).
  { apply Hdoc; reflexivity. }
  split; [|split].
  - apply Hadd. rewrite Hx. apply elem_of_singleton. reflexivity.
  - exact Hx.
  - rewrite Hx. apply size_singleton.
Defined.

(** *** End tags *)

(** C8: an end tag, once lower-cased, pops the nearest matching tag
    together with everything opened after it; without a matching open tag
    the extractor is left exactly as it was. The handler is a total
    function: it raises nothing. *)
Theorem endtag_pops_nearest (lower : str -> str) (self : VariantExtractor) (tag : str) :
  (lower tag ∈ _stack self ->
     exists pre post,
       _stack self = pre ++ lower tag :: post /\
       (lower tag ∉ post) /\
       _stack (handle_endtag lower self tag) = pre) /\
  ((lower tag ∉ _stack self) -> handle_endtag lower self tag = self) /\
  text_nodes (handle_endtag lower self tag) = text_nodes self /\
  ids (handle_endtag lower self tag) = ids self /\
  anchor_hrefs (handle_endtag lower self tag) = anchor_hrefs self.
Proof.
  split; [|split; [|auto]].
  - intros Hin. apply list_elem_of_split_r in Hin as (pre & post & Heq & Hnot).
    exists pre, post. split; [exact Heq|]. split; [exact Hnot|].
    unfold handle_endtag. cbn [_stack]. rewrite Heq.
    apply endtag_loop_found; [exact Hnot|].
    rewrite length_app. simpl. lia.
  - intros Hnot. unfold handle_endtag.
    rewrite (endtag_loop_absent _ _ _ Hnot). destruct self; reflexivity.
Qed.

Lemma endtag_pops_nearest_witness :
  (exists pre post,
     [u "div"; u "p"; u "span"; u "p"; u "br"] = pre ++ ascii_lower (u "P") :: post /\
     (ascii_lower (u "P") ∉ post) /\
     _stack (handle_endtag ascii_lower
               (mkExtractor [u "div"; u "p"; u "span"; u "p"; u "br"] [] ∅ ∅) (u "P"))
       = pre) /\
  handle_endtag ascii_lower (mkExtractor [u "div"; u "p"] [] ∅ ∅) (u "table")
    = mkExtractor [u "div"; u "p"] [] ∅ ∅.
Proof.
  split.
  - apply (proj1 (endtag_pops_nearest ascii_lower
        (mkExtractor [u "div"; u "p"; u "span"; u "p"; u "br"] [] ∅ ∅) (u "P"))).
    vm_compute. apply list_elem_of_In. simpl. tauto.
  - apply (proj1 (proj2 (endtag_pops_nearest ascii_lower _ _))).
    vm_compute. intros H. apply list_elem_of_In in H. simpl in H.
    intuition discriminate.
Defined.

Example endtag_unclosed_inner :
  _stack (handle_endtag ascii_lower
            (mkExtractor [u "div"; u "p"; u "span"; u "p"; u "br"] [] ∅ ∅) (u "P"))
  = [u "div"; u "p"; u "span"].
Proof. vm_compute. reflexivity. Qed.

(** *** Text nodes are normalized *)

Lemma handle_text_nodes_ok (lower : str -> str) (self : VariantExtractor) (e : event) :
  Forall text_node_ok (text_nodes self) ->
  Forall text_node_ok (text_nodes (handle lower self e)).
Proof.
  intros H. destruct e as [tag attrs|tag|data]; simpl.
  - rewrite handle_starttag_text_nodes. exact H.
  - exact H.
  - unfold handle_data. destruct (_in_excluded_text_context self); [exact H|].
    destruct (_normalize_text data) as [|c w] eqn:Hn; [exact H|].
    simpl. apply Forall_app. split; [exact H|].
    apply Forall_singleton. rewrite <- Hn. apply normalize_text_node_ok.
    rewrite Hn. discriminate.
Qed.

Lemma feed_events_text_nodes_ok (lower : str -> str) (evs : list event) :
  forall self, Forall text_node_ok (text_nodes self) ->
  Forall text_node_ok (text_nodes (feed_events lower self evs)).
Proof.
  induction evs as [|e evs IH]; intros self H; [exact H|].
  simpl. apply IH, handle_text_nodes_ok, H.
Qed.

(** C10: every string of [text_nodes] is non-empty and a fixed point of
    [_normalize_text], with no leading or trailing whitespace and every
    whitespace run a single space between two other characters. Every
    handler preserves this, and it holds after any sequence of events. *)
Theorem text_nodes_normalized (lower : str -> str) :
  (forall self e,
     Forall text_node_ok (text_nodes self) ->
     Forall text_node_ok (text_nodes (handle lower self e))) /\
  (forall evs, Forall text_node_ok (text_nodes (feed_events lower init evs))).
Proof.
  split.
  - apply handle_text_nodes_ok.
  - intros evs. apply feed_events_text_nodes_ok. constructor.
Qed.

Lemma text_nodes_normalized_witness :
  text_nodes (handle ascii_lower init (Text (u "  Hello   world  "))) = [u "Hello world"] /\
  Forall text_node_ok (text_nodes (handle ascii_lower init (Text (u "  Hello   world  ")))).
Proof.
  split; [vm_compute; reflexivity|].
  apply (proj1 (text_nodes_normalized ascii_lower) init). constructor.
Defined.

(** ** Counters *)

Lemma counter_get_incr c e k :
  counter_get (counter_incr c e) k
  = counter_get c k + (if decide (e = k) then 1 else 0).
Proof.
  induction c as [|[k' n] c IH]; simpl; [reflexivity|].
  destruct (decide (k' = e)) as [->|Hne]; simpl.
  - destruct (decide (e = k)); lia.
  - destruct (decide (k' = k)) as [->|Hk].
    + rewrite decide_False by congruence. lia.
    + exact IH.
Qed.

Lemma counter_get_fold l : forall c k,
  counter_get (fold_left counter_incr l c) k = counter_get c k + count l k.
Proof.
  induction l as [|x l IH]; intros c k; simpl; [lia|].
  rewrite IH, counter_get_incr. destruct (decide (x = k)); lia.
Qed.

(** A [Counter] counts occurrences. *)
Lemma counter_get_Counter l k : counter_get (Counter l) k = count l k.
Proof. unfold Counter. rewrite counter_get_fold. reflexivity. Qed.

Lemma counter_get_absent c k : k ∉ map fst c -> counter_get c k = 0.
Proof.
  induction c as [|[k' n] c IH]; simpl; [reflexivity|].
  intros Hnot. destruct (decide (k' = k)) as [->|Hk].
  - exfalso. apply Hnot. apply list_elem_of_here.
  - apply IH. intros Hin. apply Hnot. apply list_elem_of_further, Hin.
Qed.

Lemma counter_eqb_true c d :
  counter_eqb c d = true <-> forall k, counter_get c k = counter_get d k.
Proof.
  unfold counter_eqb. rewrite forallb_forall. split.
  - intros H k.
    destruct (decide (k ∈ map fst c ++ map fst d)) as [Hin|Hnot].
    + apply Nat.eqb_eq, H, list_elem_of_In, Hin.
    + rewrite elem_of_app in Hnot.
      rewrite !counter_get_absent by tauto. reflexivity.
  - intros H k _. apply Nat.eqb_eq, H.
Qed.

(** Equality of the two counters is equality of the two multisets. *)
Lemma counter_eqb_Permutation a b :
  counter_eqb (Counter a) (Counter b) = true <-> Permutation a b.
Proof.
  rewrite counter_eqb_true, (Permutation_count_occ (fun x y : str => decide (x = y))).
  split; intros H k; specialize (H k); rewrite ?counter_get_Counter in *; exact H.
Qed.

(** ** The three checks *)

Lemma text_okb_true uo b v : text_okb uo b v = true <-> text_passes uo b v.
Proof.
  unfold text_okb, text_passes. destruct uo.
  - apply counter_eqb_Permutation.
  - apply bool_decide_eq_true.
Qed.

Lemma text_okb_false uo b v : text_okb uo b v = false <-> ~ text_passes uo b v.
Proof. rewrite <- text_okb_true. destruct (text_okb uo b v); intuition congruence. Qed.

Lemma only_stderr_app kind t1 t2 :
  only_stderr kind t1 -> only_stderr kind t2 -> only_stderr kind (t1 ++ t2).
Proof. intros H1 H2. apply Forall_app. split; assumption. Qed.

Lemma only_stderr_each kind ls :
  Forall (fun l => kind l = true) ls -> only_stderr kind (map Stderr ls).
Proof.
  intros H. unfold only_stderr. apply Forall_fmap.
  eapply Forall_impl; [exact H|]. intros l Hl. exact Hl.
Qed.

Lemma counted_text_lines c :
  Forall (fun l => is_text_line l = true) (map counted c).
Proof. apply Forall_fmap, Forall_true. intros e. reflexivity. Qed.

Ltac run_io := unfold mbind, io_bind, mret, io_ret, eprint, eprint_each, print; simpl.

(** The text check: its trace does not depend on [ok], it is empty when
    the check passes and starts with the mismatch heading when it fails. *)
Lemma check_text_run uo b v ok :
  check_text uo b v ok
  = (fst (check_text uo b v true), Returned (ok && text_okb uo b v)).
Proof.
  unfold check_text, text_okb. destruct uo.
  - destruct (counter_eqb _ _); simpl; [rewrite andb_true_r; reflexivity|].
    rewrite andb_false_r. run_io.
    destruct (nonempty (counter_sub (Counter (text_nodes b)) (Counter (text_nodes v))));
    destruct (nonempty (counter_sub (Counter (text_nodes v)) (Counter (text_nodes b))));
    reflexivity.
  - destruct (bool_decide _); simpl; [rewrite andb_true_r; reflexivity|].
    rewrite andb_false_r. reflexivity.
Qed.

Lemma check_text_trace uo b v :
  only_stderr is_text_line (fst (check_text uo b v true)) /\
  (text_okb uo b v = true -> fst (check_text uo b v true) = []) /\
  (text_okb uo b v = false ->
   exists t, fst (check_text uo b v true)
             = Stderr (if uo then TextMismatchUnordered else TextMismatch) :: t).
Proof.
  unfold check_text, text_okb. destruct uo.
  - destruct (counter_eqb _ _); simpl.
    { split; [constructor|]. split; [reflexivity|discriminate]. }
    split; [|split; [discriminate|]].
    + run_io.
      destruct (nonempty (counter_sub (Counter (text_nodes b)) (Counter (text_nodes v))));
      destruct (nonempty (counter_sub (Counter (text_nodes v)) (Counter (text_nodes b))));
      simpl; repeat (apply Forall_cons; split; [reflexivity|]);
      rewrite ?app_nil_r;
      repeat first
        [ apply Forall_nil_2
        | apply Forall_cons; split; [reflexivity|]
        | apply only_stderr_app
        | apply only_stderr_each, counted_text_lines ].
    + intros _. run_io.
      destruct (nonempty (counter_sub (Counter (text_nodes b)) (Counter (text_nodes v))));
      destruct (nonempty (counter_sub (Counter (text_nodes v)) (Counter (text_nodes b))));
      simpl; eexists; reflexivity.
  - destruct (bool_decide _); simpl.
    { split; [constructor|]. split; [reflexivity|discriminate]. }
    split; [|split; [discriminate|]].
    + repeat (apply Forall_cons; split; [reflexivity|]). constructor.
    + intros _. eexists. reflexivity.
Qed.

Lemma check_ids_run b v ok :
  check_ids b v ok
  = (fst (check_ids b v true), Returned (ok && bool_decide (ids b = ids v))).
Proof.
  unfold check_ids.
  destruct (bool_decide _); simpl; [rewrite andb_true_r; reflexivity|].
  rewrite andb_false_r. run_io.
  destruct (nonempty (sorted (ids b ∖ ids v)));
  destruct (nonempty (sorted (ids v ∖ ids b))); reflexivity.
Qed.

Lemma check_ids_trace b v :
  only_stderr is_id_line (fst (check_ids b v true)) /\
  (ids b = ids v -> fst (check_ids b v true) = []) /\
  (ids b <> ids v -> exists t, fst (check_ids b v true) = Stderr IDSetMismatch :: t).
Proof.
  unfold check_ids. destruct (bool_decide_reflect (ids b = ids v)) as [He|Hne]; simpl.
  { split; [constructor|]. split; [reflexivity|contradiction]. }
  split; [|split; [contradiction|]].
  - run_io.
    destruct (nonempty (sorted (ids b ∖ ids v)));
    destruct (nonempty (sorted (ids v ∖ ids b)));
    simpl; repeat (apply Forall_cons; split; [reflexivity|]); constructor.
  - intros _. run_io.
    destruct (nonempty (sorted (ids b ∖ ids v)));
    destruct (nonempty (sorted (ids v ∖ ids b))); simpl; eexists; reflexivity.
Qed.

Lemma check_hrefs_run b v ok :
  check_hrefs b v ok
  = (fst (check_hrefs b v true),
     Returned (ok && bool_decide (anchor_hrefs b = anchor_hrefs v))).
Proof.
  unfold check_hrefs.
  destruct (bool_decide _); simpl; [rewrite andb_true_r; reflexivity|].
  rewrite andb_false_r. run_io.
  destruct (nonempty (sorted (anchor_hrefs b ∖ anchor_hrefs v)));
  destruct (nonempty (sorted (anchor_hrefs v ∖ anchor_hrefs b))); reflexivity.
Qed.

Lemma check_hrefs_trace b v :
  only_stderr is_href_line (fst (check_hrefs b v true)) /\
  (anchor_hrefs b = anchor_hrefs v -> fst (check_hrefs b v true) = []) /\
  (anchor_hrefs b <> anchor_hrefs v ->
   exists t, fst (check_hrefs b v true) = Stderr HrefSetMismatch :: t).
Proof.
  unfold check_hrefs.
  destruct (bool_decide_reflect (anchor_hrefs b = anchor_hrefs v)) as [He|Hne]; simpl.
  { split; [constructor|]. split; [reflexivity|contradiction]. }
  split; [|split; [contradiction|]].
  - run_io.
    destruct (nonempty (sorted (anchor_hrefs b ∖ anchor_hrefs v)));
    destruct (nonempty (sorted (anchor_hrefs v ∖ anchor_hrefs b)));
    simpl; repeat (apply Forall_cons; split; [reflexivity|]); constructor.
  - intros _. run_io.
    destruct (nonempty (sorted (anchor_hrefs b ∖ anchor_hrefs v)));
    destruct (nonempty (sorted (anchor_hrefs v ∖ anchor_hrefs b)));
    simpl; eexists; reflexivity.
Qed.


Lemma compare_run uo b v :
  compare uo b v
  = (fst (check_text uo b v true) ++ fst (check_ids b v true)
       ++ fst (check_hrefs b v true)
       ++ (if verdict uo b v then [Stdout OK] else []),
     Returned (if verdict uo b v then 0%Z else 1%Z)).
Proof.
  unfold compare, verdict.
  rewrite (check_text_run uo b v true). unfold mbind at 1, io_bind at 1.
  rewrite (check_ids_run b v). unfold mbind at 1, io_bind at 1.
  rewrite (check_hrefs_run b v). unfold mbind at 1, io_bind at 1.
  simpl andb.
  destruct (text_okb uo b v && bool_decide (ids b = ids v)
            && bool_decide (anchor_hrefs b = anchor_hrefs v));
    run_io; rewrite ?app_nil_r; reflexivity.
Qed.

Lemma verdict_true uo b v : verdict uo b v = true <-> all_pass uo b v.
Proof.
  unfold verdict, all_pass, ids_pass, hrefs_pass.
  rewrite !andb_true_iff, text_okb_true, !bool_decide_eq_true. tauto.
Qed.

Section MainFacts.

Variable lower : str -> str.
Variable scan : str -> exn + list event.
Variable fs : Path -> file.

Lemma present_cases f :
  present f = true <-> (exists e, f = Unreadable e) \/ (exists text, f = Contents text).
Proof.
  destruct f; simpl; split; try discriminate; eauto;
    intros [[? H]|[? H]]; discriminate.
Qed.

Lemma main_base_missing base variant uo :
  fs base = Missing ->
  main lower scan fs base variant uo
  = ([Exists base; Stderr (BaseNotFound base)], Returned 2%Z).
Proof. intros Hb. unfold main, path_exists. rewrite Hb. reflexivity. Qed.

Lemma main_base_inaccessible base variant uo e :
  fs base = Inaccessible e ->
  main lower scan fs base variant uo = ([Exists base], Raised e).
Proof. intros Hb. unfold main, path_exists. rewrite Hb. reflexivity. Qed.

Lemma main_variant_missing base variant uo :
  present (fs base) = true -> fs variant = Missing ->
  main lower scan fs base variant uo
  = ([Exists base; Exists variant; Stderr (VariantNotFound variant)], Returned 2%Z).
Proof.
  intros Hb Hv. unfold main, path_exists. rewrite Hv.
  destruct (fs base); try discriminate; reflexivity.
Qed.

Lemma main_variant_inaccessible base variant uo e :
  present (fs base) = true -> fs variant = Inaccessible e ->
  main lower scan fs base variant uo = ([Exists base; Exists variant], Raised e).
Proof.
  intros Hb Hv. unfold main, path_exists. rewrite Hv.
  destruct (fs base); try discriminate; reflexivity.
Qed.

Lemma main_base_unreadable base variant uo e :
  fs base = Unreadable e -> present (fs variant) = true ->
  main lower scan fs base variant uo
  = ([Exists base; Exists variant; ReadText base], Raised e).
Proof.
  intros Hb Hv. unfold main, path_exists, extract, _read_text. rewrite Hb.
  destruct (fs variant); try discriminate; reflexivity.
Qed.

Lemma main_base_parse_error base variant uo cb e :
  fs base = Contents cb -> scan cb = inl e -> present (fs variant) = true ->
  main lower scan fs base variant uo
  = ([Exists base; Exists variant; ReadText base; Feed cb], Raised e).
Proof.
  intros Hb Hs Hv. unfold main, path_exists, extract, _read_text, feed.
  rewrite Hb. destruct (fs variant); try discriminate; run_io;
    rewrite Hs; reflexivity.
Qed.

Lemma main_variant_unreadable base variant uo cb eb e :
  fs base = Contents cb -> scan cb = inr eb -> fs variant = Unreadable e ->
  main lower scan fs base variant uo
  = ([Exists base; Exists variant; ReadText base; Feed cb; ReadText variant],
     Raised e).
Proof.
  intros Hb Hs Hv. unfold main, path_exists, extract, _read_text, feed.
  rewrite Hb, Hv. run_io. rewrite Hs. reflexivity.
Qed.

Lemma main_variant_parse_error base variant uo cb eb cv e :
  fs base = Contents cb -> scan cb = inr eb ->
  fs variant = Contents cv -> scan cv = inl e ->
  main lower scan fs base variant uo
  = ([Exists base; Exists variant; ReadText base; Feed cb;
      ReadText variant; Feed cv], Raised e).
Proof.
  intros Hb Hs Hv Hs'. unfold main, path_exists, extract, _read_text, feed.
  rewrite Hb, Hv. run_io. rewrite Hs. run_io. rewrite Hs'. reflexivity.
Qed.

(** [main] on two files that are read and parsed. *)
Lemma main_readable base variant cb cv eb ev uo :
  fs base = Contents cb -> fs variant = Contents cv ->
  scan cb = inr eb -> scan cv = inr ev ->
  main lower scan fs base variant uo
  = ([Exists base; Exists variant; ReadText base; Feed cb;
      ReadText variant; Feed cv]
       ++ fst (compare uo (feed_events lower init eb) (feed_events lower init ev)),
     snd (compare uo (feed_events lower init eb) (feed_events lower init ev))).
Proof.
  intros Hb Hv Hsb Hsv. unfold main, path_exists, extract, _read_text, feed.
  rewrite Hb, Hv. run_io. rewrite Hsb. run_io. rewrite Hsv. run_io.
  destruct (compare uo _ _) as [t r]. reflexivity.
Qed.

(** The nine ways a run can go, in the order in which [main] meets them. *)
Lemma main_cases base variant uo :
  (fs base = Missing /\
   main lower scan fs base variant uo
   = ([Exists base; Stderr (BaseNotFound base)], Returned 2%Z)) \/
  (exists e, fs base = Inaccessible e /\
   main lower scan fs base variant uo = ([Exists base], Raised e)) \/
  (present (fs base) = true /\ fs variant = Missing /\
   main lower scan fs base variant uo
   = ([Exists base; Exists variant; Stderr (VariantNotFound variant)],
      Returned 2%Z)) \/
  (exists e, present (fs base) = true /\ fs variant = Inaccessible e /\
   main lower scan fs base variant uo
   = ([Exists base; Exists variant], Raised e)) \/
  (exists e, fs base = Unreadable e /\ present (fs variant) = true /\
   main lower scan fs base variant uo
   = ([Exists base; Exists variant; ReadText base], Raised e)) \/
  (exists cb e, fs base = Contents cb /\ scan cb = inl e /\
   present (fs variant) = true /\
   main lower scan fs base variant uo
   = ([Exists base; Exists variant; ReadText base; Feed cb], Raised e)) \/
  (exists cb eb e, fs base = Contents cb /\ scan cb = inr eb /\
   fs variant = Unreadable e /\
   main lower scan fs base variant uo
   = ([Exists base; Exists variant; ReadText base; Feed cb; ReadText variant],
      Raised e)) \/
  (exists cb eb cv e, fs base = Contents cb /\ scan cb = inr eb /\
   fs variant = Contents cv /\ scan cv = inl e /\
   main lower scan fs base variant uo
   = ([Exists base; Exists variant; ReadText base; Feed cb;
       ReadText variant; Feed cv], Raised e)) \/
  (exists cb eb cv ev, fs base = Contents cb /\ scan cb = inr eb /\
   fs variant = Contents cv /\ scan cv = inr ev /\
   main lower scan fs base variant uo
   = ([Exists base; Exists variant; ReadText base; Feed cb;
       ReadText variant; Feed cv]
        ++ fst (compare uo (feed_events lower init eb) (feed_events lower init ev)),
      snd (compare uo (feed_events lower init eb) (feed_events lower init ev)))).
Proof.
  destruct (fs base) as [|e|e|cb] eqn:Hb.
  - left. split; [reflexivity|]. apply main_base_missing, Hb.
  - right. left. exists e. split; [reflexivity|].
    apply main_base_inaccessible, Hb.
  - destruct (fs variant) as [|e'|e'|cv] eqn:Hv.
    + do 2 right. left. split; [reflexivity|]. split; [reflexivity|].
      apply main_variant_missing; [rewrite Hb; reflexivity|exact Hv].
    + do 3 right. left. exists e'. split; [reflexivity|]. split; [reflexivity|].
      apply main_variant_inaccessible; [rewrite Hb; reflexivity|exact Hv].
    + do 4 right. left. exists e. split; [reflexivity|]. split; [reflexivity|].
      apply main_base_unreadable; [exact Hb|rewrite Hv; reflexivity].
    + do 4 right. left. exists e. split; [reflexivity|]. split; [reflexivity|].
      apply main_base_unreadable; [exact Hb|rewrite Hv; reflexivity].
  - destruct (fs variant) as [|e'|e'|cv] eqn:Hv.
    + do 2 right. left. split; [reflexivity|]. split; [reflexivity|].
      apply main_variant_missing; [rewrite Hb; reflexivity|exact Hv].
    + do 3 right. left. exists e'. split; [reflexivity|]. split; [reflexivity|].
      apply main_variant_inaccessible; [rewrite Hb; reflexivity|exact Hv].
    + destruct (scan cb) as [e|eb] eqn:Hs.
      * do 5 right. left. exists cb, e. split; [reflexivity|].
        split; [exact Hs|]. split; [reflexivity|].
        apply main_base_parse_error; [exact Hb|exact Hs|rewrite Hv; reflexivity].
      * do 6 right. left. exists cb, eb, e'. split; [reflexivity|].
        split; [exact Hs|]. split; [reflexivity|].
        eapply main_variant_unreadable; eassumption.
    + destruct (scan cb) as [e|eb] eqn:Hs.
      * do 5 right. left. exists cb, e. split; [reflexivity|].
        split; [exact Hs|]. split; [reflexivity|].
        apply main_base_parse_error; [exact Hb|exact Hs|rewrite Hv; reflexivity].
      * destruct (scan cv) as [e|ev] eqn:Hs'.
        -- do 7 right. left. exists cb, eb, cv, e. split; [reflexivity|].
           split; [exact Hs|]. split; [reflexivity|]. split; [exact Hs'|].
           eapply main_variant_parse_error; eassumption.
        -- do 8 right. exists cb, eb, cv, ev. split; [reflexivity|].
           split; [exact Hs|]. split; [reflexivity|]. split; [exact Hs'|].
           apply main_readable; assumption.
Qed.


End MainFacts.

(** ** What a run prints *)

Lemma only_stderr_elem kind t l :
  only_stderr kind t -> Stderr l ∈ t -> kind l = true.
Proof.
  intros H Hin. unfold only_stderr in H. rewrite Forall_forall in H.
  apply (H _ Hin).
Qed.

Lemma only_stderr_stdout kind t : only_stderr kind t -> stdout_of t = [].
Proof.
  induction 1 as [|e t He _ IH]; [reflexivity|].
  destruct e; try contradiction. exact IH.
Qed.

Lemma only_stderr_filter kind (keep : line -> bool) t :
  only_stderr kind t ->
  (forall l, kind l = true -> keep l = true) ->
  List.filter keep (stderr_of t) = stderr_of t.
Proof.
  intros H Hk. induction H as [|e t He _ IH]; [reflexivity|].
  destruct e; try contradiction. cbn. rewrite (Hk _ He). f_equal. exact IH.
Qed.

Lemma only_stderr_filter_out kind (keep : line -> bool) t :
  only_stderr kind t ->
  (forall l, kind l = true -> keep l = false) ->
  List.filter keep (stderr_of t) = [].
Proof.
  intros H Hk. induction H as [|e t He _ IH]; [reflexivity|].
  destruct e; try contradiction. cbn. rewrite (Hk _ He). exact IH.
Qed.

Lemma stderr_of_app t1 t2 : stderr_of (t1 ++ t2) = stderr_of t1 ++ stderr_of t2.
Proof. apply omap_app. Qed.

Lemma stdout_of_app t1 t2 : stdout_of (t1 ++ t2) = stdout_of t1 ++ stdout_of t2.
Proof. apply omap_app. Qed.

(** Which headings a comparison prints. *)
Lemma compare_headings uo b v :
  ((Stderr TextMismatch ∈ fst (compare uo b v) \/
    Stderr TextMismatchUnordered ∈ fst (compare uo b v)) <-> ~ text_passes uo b v) /\
  (Stderr IDSetMismatch ∈ fst (compare uo b v) <-> ~ ids_pass b v) /\
  (Stderr HrefSetMismatch ∈ fst (compare uo b v) <-> ~ hrefs_pass b v).
Proof.
  rewrite compare_run. cbn [fst].
  destruct (check_text_trace uo b v) as (HT & HT1 & HT0).
  destruct (check_ids_trace b v) as (HI & HI1 & HI0).
  destruct (check_hrefs_trace b v) as (HH & HH1 & HH0).
  assert (Htail : forall l,
    Stderr l ∉ (if verdict uo b v then [Stdout OK] else [])).
  { intros l Hin. destruct (verdict uo b v).
    - apply list_elem_of_singleton in Hin. discriminate.
    - apply elem_of_nil in Hin. exact Hin. }
  assert (Hin : forall l, Stderr l ∈
      fst (check_text uo b v true) ++ fst (check_ids b v true)
        ++ fst (check_hrefs b v true)
        ++ (if verdict uo b v then [Stdout OK] else []) ->
      (is_text_line l = true /\ Stderr l ∈ fst (check_text uo b v true)) \/
      (is_id_line l = true /\ Stderr l ∈ fst (check_ids b v true)) \/
      (is_href_line l = true /\ Stderr l ∈ fst (check_hrefs b v true))).
  { intros l. rewrite !elem_of_app. intros [H|[H|[H|H]]].
    - left. split; [eapply only_stderr_elem; eassumption|exact H].
    - right. left. split; [eapply only_stderr_elem; eassumption|exact H].
    - right. right. split; [eapply only_stderr_elem; eassumption|exact H].
    - exfalso. exact (Htail _ H). }
  rewrite <- text_okb_false. unfold ids_pass, hrefs_pass.
  split; [|split].
  - split.
    + intros H. destruct (text_okb uo b v) eqn:E; [|reflexivity].
      destruct H as [H|H]; apply Hin in H;
        destruct H as [[_ H]|[[H _]|[H _]]]; try discriminate;
        rewrite (HT1 eq_refl) in H; apply elem_of_nil in H; contradiction.
    + intros E. destruct (HT0 E) as [t Ht]. rewrite Ht.
      destruct uo; [right|left]; apply list_elem_of_here.
  - split.
    + intros H Heq. apply Hin in H.
      destruct H as [[H _]|[[_ H]|[H _]]]; try discriminate.
      rewrite (HI1 Heq) in H. apply elem_of_nil in H. contradiction.
    + intros Hne. destruct (HI0 Hne) as [t Ht]. rewrite Ht.
      rewrite elem_of_app. right. apply list_elem_of_here.
  - split.
    + intros H Heq. apply Hin in H.
      destruct H as [[H _]|[[H _]|[_ H]]]; try discriminate.
      rewrite (HH1 Heq) in H. apply elem_of_nil in H. contradiction.
    + intros Hne. destruct (HH0 Hne) as [t Ht]. rewrite Ht.
      rewrite !elem_of_app. right. right. left. apply list_elem_of_here.
Qed.

(** The verdict of a comparison. *)
Lemma compare_verdict uo b v :
  (all_pass uo b v ->
     compare uo b v = ([Stdout OK], Returned 0%Z)) /\
  (~ all_pass uo b v ->
     snd (compare uo b v) = Returned 1%Z /\ stdout_of (fst (compare uo b v)) = []).
Proof.
  rewrite compare_run. rewrite <- verdict_true.
  destruct (check_text_trace uo b v) as (HT & HT1 & _).
  destruct (check_ids_trace b v) as (HI & HI1 & _).
  destruct (check_hrefs_trace b v) as (HH & HH1 & _).
  split.
  - intros Hv. rewrite Hv. unfold verdict in Hv.
    apply andb_true_iff in Hv as [Hv Hh]. apply andb_true_iff in Hv as [Ht Hi].
    apply bool_decide_eq_true in Hh, Hi.
    rewrite (HT1 Ht), (HI1 Hi), (HH1 Hh). reflexivity.
  - intros Hv. destruct (verdict uo b v); [contradiction Hv; reflexivity|].
    cbn [fst snd]. split; [reflexivity|].
    rewrite !stdout_of_app, (only_stderr_stdout _ _ HT),
      (only_stderr_stdout _ _ HI), (only_stderr_stdout _ _ HH). reflexivity.
Qed.





(** C5: when the two text-node sequences are permutations of one another
    but differ as sequences, the ordered mode reports a text mismatch and
    returns 1, the unordered mode prints no line of the text check, and the
    id and href diagnostics are the same lines in both modes; the unordered
    run returns 0 exactly when ids and hrefs agree. *)
Theorem order_sensitivity (b v : VariantExtractor) :
  Permutation (text_nodes b) (text_nodes v) ->
  text_nodes b <> text_nodes v ->
  ~ text_passes false b v /\
  text_passes true b v /\
  Stderr TextMismatch ∈ fst (compare false b v) /\
  snd (compare false b v) = Returned 1%Z /\
  (forall l, Stderr l ∈ fst (compare true b v) -> is_text_line l = false) /\
  List.filter (fun l => negb (is_text_line l)) (stderr_of (fst (compare false b v)))
    = stderr_of (fst (compare true b v)) /\
  (Stderr IDSetMismatch ∈ fst (compare false b v)
     <-> Stderr IDSetMismatch ∈ fst (compare true b v)) /\
  (Stderr HrefSetMismatch ∈ fst (compare false b v)
     <-> Stderr HrefSetMismatch ∈ fst (compare true b v)) /\
  (snd (compare true b v) = Returned 0%Z <-> ids_pass b v /\ hrefs_pass b v).
Proof.
  intros Hperm Hne.
  assert (Hord : ~ text_passes false b v) by exact Hne.
  assert (Hun : text_passes true b v) by exact Hperm.
  split; [exact Hord|]. split; [exact Hun|].
  destruct (compare_headings false b v) as (Hf1 & Hf2 & Hf3).
  destruct (compare_headings true b v) as (Ht1 & Ht2 & Ht3).
  split.
  { apply Hf1 in Hord as [H|H]; [exact H|].
    exfalso. revert H. rewrite compare_run. cbn [fst].
    destruct (check_text_trace false b v) as (HT & _).
    destruct (check_ids_trace b v) as (HI & _).
    destruct (check_hrefs_trace b v) as (HH & _).
    rewrite !elem_of_app. intros [H|[H|[H|H]]].
    - revert H. unfold check_text. destruct (bool_decide _); simpl.
      + intros H. apply elem_of_nil in H. exact H.
      + intros H. apply list_elem_of_In in H. simpl in H. intuition discriminate.
    - apply (only_stderr_elem _ _ _ HI) in H. discriminate.
    - apply (only_stderr_elem _ _ _ HH) in H. discriminate.
    - destruct (verdict false b v).
      + apply list_elem_of_singleton in H. discriminate.
      + apply elem_of_nil in H. exact H. }
  split.
  { apply (compare_verdict false b v). intros (H & _). exact (Hord H). }
  destruct (check_text_trace false b v) as (HTf & _).
  destruct (check_text_trace true b v) as (_ & HTt & _).
  destruct (check_ids_trace b v) as (HI & _).
  destruct (check_hrefs_trace b v) as (HH & _).
  apply text_okb_true in Hun.
  split.
  { intros l. rewrite compare_run. cbn [fst]. rewrite (HTt Hun).
    rewrite !elem_of_app. intros [H|[H|[H|H]]].
    - apply elem_of_nil in H. contradiction.
    - apply (only_stderr_elem _ _ _ HI) in H. destruct l; try discriminate; reflexivity.
    - apply (only_stderr_elem _ _ _ HH) in H. destruct l; try discriminate; reflexivity.
    - destruct (verdict true b v).
      + apply list_elem_of_singleton in H. discriminate.
      + apply elem_of_nil in H. contradiction. }
  split.
  { rewrite !compare_run. cbn [fst]. rewrite (HTt Hun).
    rewrite !stderr_of_app, !List.filter_app.
    rewrite (only_stderr_filter_out _ _ _ HTf)
      by (intros l Hl; rewrite Hl; reflexivity).
    rewrite (only_stderr_filter _ _ _ HI)
      by (intros l Hl; destruct l; try discriminate; reflexivity).
    rewrite (only_stderr_filter _ _ _ HH)
      by (intros l Hl; destruct l; try discriminate; reflexivity).
    destruct (verdict false b v); destruct (verdict true b v); reflexivity. }
  split; [rewrite Hf2, Ht2; reflexivity|].
  split; [rewrite Hf3, Ht3; reflexivity|].
  rewrite compare_run. cbn [snd]. unfold verdict. rewrite Hun.
  unfold ids_pass, hrefs_pass. cbn [andb].
  destruct (bool_decide_reflect (ids b = ids v));
    destruct (bool_decide_reflect (anchor_hrefs b = anchor_hrefs v));
    cbn [andb]; split; try tauto; try discriminate; auto.
Qed.

Lemma order_sensitivity_witness :
  compare false (mkExtractor [] [u "Hello"; u "World"] ∅ ∅)
                (mkExtractor [] [u "World"; u "Hello"] ∅ ∅)
  = ([Stderr TextMismatch; Stderr (BaseTextNodes 2); Stderr (VarTextNodes 2);
      Stderr (DiffPreview [(0, u "Hello", u "World"); (1, u "World", u "Hello")])],
     Returned 1%Z) /\
  compare true (mkExtractor [] [u "Hello"; u "World"] ∅ ∅)
               (mkExtractor [] [u "World"; u "Hello"] ∅ ∅)
  = ([Stdout OK], Returned 0%Z) /\
  text_passes true (mkExtractor [] [u "Hello"; u "World"] ∅ ∅)
                   (mkExtractor [] [u "World"; u "Hello"] ∅ ∅).
Proof.
  split; [vm_compute; reflexivity|]. split; [vm_compute; reflexivity|].
  apply (order_sensitivity (mkExtractor [] [u "Hello"; u "World"] ∅ ∅)
                           (mkExtractor [] [u "World"; u "Hello"] ∅ ∅)).
  - simpl. apply perm_swap.
  - simpl. vm_compute. discriminate.
Defined.

(** C6, as the program has it: a document on which the parser does not
    raise, compared against itself or against a file with the same
    contents, passes all three checks in both modes: the run reads and
    parses both files, prints [OK] and nothing else, and returns 0. *)
Theorem identity_passes (lower : str -> str) (scan : str -> exn + list event)
    (fs : Path -> file) (base variant : Path) (text : str) (evs : list event)
    (unordered_text : bool) :
  fs base = Contents text ->
  fs variant = Contents text ->
  scan text = inr evs ->
  all_pass unordered_text (feed_events lower init evs)
                          (feed_events lower init evs) /\
  main lower scan fs base variant unordered_text
  = ([Exists base; Exists variant; ReadText base; Feed text;
      ReadText variant; Feed text; Stdout OK],
     Returned 0%Z).
Proof.
  intros Hb Hv Hs.
  assert (Hall : all_pass unordered_text (feed_events lower init evs)
                                         (feed_events lower init evs)).
  { unfold all_pass, text_passes, ids_pass, hrefs_pass.
    destruct unordered_text; auto. }
  split; [exact Hall|].
  rewrite (main_readable lower scan fs base variant text text evs evs
             unordered_text Hb Hv Hs Hs).
  rewrite (proj1 (compare_verdict _ _ _) Hall). reflexivity.
Qed.

Lemma identity_passes_witness :
  main ascii_lower plain_scan (files [(u "index.html", u "Hello  world")])
       (u "index.html") (u "index.html") true
  = ([Exists (u "index.html"); Exists (u "index.html");
      ReadText (u "index.html"); Feed (u "Hello  world");
      ReadText (u "index.html"); Feed (u "Hello  world"); Stdout OK],
     Returned 0%Z).
Proof.
  apply (identity_passes ascii_lower plain_scan
           (files [(u "index.html", u "Hello  world")])
           (u "index.html") (u "index.html") (u "Hello  world")
           [Text (u "Hello  world")] true);
    reflexivity.
Defined.

(** C6 as the specification words it fails on a document on which the
    parser raises: compared against itself, the run ends in that exception
    and does not exit 0. *)
Lemma identity_parser_error :
  files [(u "index.html", MARKED_SECTION)] (u "index.html")
  = Contents MARKED_SECTION /\
  main ascii_lower probe_scan (files [(u "index.html", MARKED_SECTION)])
       (u "index.html") (u "index.html") false
  = ([Exists (u "index.html"); Exists (u "index.html");
      ReadText (u "index.html"); Feed MARKED_SECTION],
     Raised MARKED_SECTION_ERROR) /\
  snd (main ascii_lower probe_scan (files [(u "index.html", MARKED_SECTION)])
            (u "index.html") (u "index.html") false) <> Returned 0%Z /\
  snd (main ascii_lower probe_scan (files [(u "index.html", MARKED_SECTION)])
            (u "index.html") (u "index.html") true) <> Returned 0%Z.
Proof.
  split; [vm_compute; reflexivity|]. split; [vm_compute; reflexivity|].
  split; vm_compute; discriminate.
Qed.

(** ** Missing inputs *)




(** ** The model on the scenarios of the specification *)

Example normalize_collapses_and_trims :
  _normalize_text (u "  Hello   world  ") = u "Hello world".
Proof. vm_compute. reflexivity. Qed.

(** No-break space, tab, line feed and ideographic space are whitespace. *)
Example normalize_unicode_whitespace :
  _normalize_text [0x20; 0xA0; 0x41; 0x09; 0x0A; 0x42; 0x3000]%N = [0x41; 0x20; 0x42]%N.
Proof. vm_compute. reflexivity. Qed.

(** [<div id="a">Hello  world</div><a href="/x">link</a>] *)
Example scenario_A_extraction :
  let r := feed_events ascii_lower init
             [ StartTag (u "div") [(u "id", Some (u "a"))]; Text (u "Hello  world");
               EndTag (u "div");
               StartTag (u "a") [(u "href", Some (u "/x"))]; Text (u "link");
               EndTag (u "a") ] in
  _stack r = [] /\ text_nodes r = [u "Hello world"; u "link"] /\
  ids r = {[ u "a" ]} /\ anchor_hrefs r = {[ u "/x" ]}.
Proof. vm_compute. repeat split; reflexivity. Qed.

Example scenario_C_missing_id :
  compare false (mkExtractor [] [] {[ u "a" ]} ∅) (mkExtractor [] [] ∅ ∅)
  = ([Stderr IDSetMismatch; Stderr (MissingIDs 1 [u "a"])], Returned 1%Z).
Proof. vm_compute. reflexivity. Qed.

Example scenario_D_changed_href :
  compare false (mkExtractor [] [u "x"] ∅ {[ u "/page" ]})
                (mkExtractor [] [u "x"] ∅ {[ u "/other" ]})
  = ([Stderr HrefSetMismatch; Stderr (MissingHrefs 1 [u "/page"]);
      Stderr (ExtraHrefs 1 [u "/other"])], Returned 1%Z).
Proof. vm_compute. reflexivity. Qed.

(** A file that exists but cannot be read as text ends the run with the
    exception of [read_text]. *)
Example unreadable_base_raises :
  main ascii_lower plain_scan
       (fun p => if decide (p = u "dir")
                 then Unreadable (Exception (u "IsADirectoryError") (u "dir"))
                 else Contents (u "x"))
       (u "dir") (u "v.html") false
  = ([Exists (u "dir"); Exists (u "v.html"); ReadText (u "dir")],
     Raised (Exception (u "IsADirectoryError") (u "dir"))).
Proof. vm_compute. reflexivity. Qed.

(** A base path too long for [stat]: the existence check itself raises,
    and nothing is printed. *)
Example inaccessible_base_raises :
  main ascii_lower plain_scan
       (fun p => if decide (p = u "long")
                 then Inaccessible (Exception (u "OSError") (u "File name too long"))
                 else Contents (u "x"))
       (u "long") (u "v.html") false
  = ([Exists (u "long")],
     Raised (Exception (u "OSError") (u "File name too long"))).
Proof. vm_compute. reflexivity. Qed.

Lemma elem_of_stderr_of l t : l ∈ stderr_of t <-> Stderr l ∈ t.
Proof.
  unfold stderr_of. rewrite list_elem_of_omap. split.
  - intros (e & Hin & He). destruct e; try discriminate.
    injection He as ->. exact Hin.
  - intros Hin. exists (Stderr l). auto.
Qed.

(** * Further properties of the program *)

(** ** Normalization and data events *)

Lemma filter_sub_ws b s :
  List.filter nonspace (sub_ws b s) = List.filter nonspace s.
Proof.
  revert b. induction s as [|c s IH]; intros b; simpl; [reflexivity|].
  unfold nonspace at 2. destruct (isspace c) eqn:Hc; simpl.
  - destruct b; simpl; apply IH.
  - unfold nonspace at 1. rewrite Hc. simpl. f_equal. apply IH.
Qed.

Lemma filter_lstrip s : List.filter nonspace (lstrip s) = List.filter nonspace s.
Proof.
  induction s as [|c s IH]; simpl; [reflexivity|].
  unfold nonspace at 2. destruct (isspace c) eqn:Hc; simpl; [exact IH|].
  unfold nonspace at 1. rewrite Hc. reflexivity.
Qed.

Lemma filter_rstrip s : List.filter nonspace (rstrip s) = List.filter nonspace s.
Proof.
  unfold rstrip. rewrite List.filter_rev, filter_lstrip, List.filter_rev.
  apply rev_involutive.
Qed.

Lemma filter_normalize s :
  List.filter nonspace (_normalize_text s) = List.filter nonspace s.
Proof.
  unfold _normalize_text, strip.
  rewrite filter_rstrip, filter_lstrip. apply filter_sub_ws.
Qed.

Lemma filter_nonspace_nil s :
  List.filter nonspace s = [] <-> forallb isspace s = true.
Proof.
  induction s as [|c s IH]; simpl; [tauto|].
  unfold nonspace at 1. destruct (isspace c); simpl; [exact IH|].
  split; discriminate.
Qed.

Lemma normalize_nil s : _normalize_text s = [] <-> forallb isspace s = true.
Proof.
  rewrite <- filter_nonspace_nil, <- filter_normalize. split.
  - intros ->. reflexivity.
  - intros H. destruct (normalize_shape s) as (_ & Hl & _).
    destruct (_normalize_text s) as [|c w]; [reflexivity|].
    simpl in Hl, H. unfold nonspace in H. rewrite Hl in H. discriminate.
Qed.

(** X1: normalization only touches whitespace: the characters that are not
    whitespace come out the same and in the same order. *)
Theorem normalize_keeps_nonspace (s : str) :
  List.filter nonspace (_normalize_text s) = List.filter nonspace s.
Proof.
  unfold _normalize_text, strip.
  rewrite filter_rstrip, filter_lstrip.
  apply filter_sub_ws.
Qed.

(** X2: a data event leaves the extractor exactly as it was if and only if
    it arrives in the excluded context or holds nothing but whitespace;
    otherwise it appends the normalized chunk, and nothing else changes. *)
Theorem handle_data_cases (self : VariantExtractor) (data : str) :
  (handle_data self data = self <->
     _in_excluded_text_context self = true \/ forallb isspace data = true) /\
  (_in_excluded_text_context self = false -> forallb isspace data = false ->
     handle_data self data
     = mkExtractor (_stack self) (text_nodes self ++ [_normalize_text data])
                   (ids self) (anchor_hrefs self)).
Proof.
  unfold handle_data. rewrite <- normalize_nil.
  destruct (_in_excluded_text_context self).
  { split; [tauto|discriminate]. }
  destruct (_normalize_text data) as [|c w] eqn:Hn.
  - split; [tauto|]. intros _ H. apply normalize_nil in Hn. congruence.
  - split; [|reflexivity]. split.
    + intros H. exfalso. apply (f_equal text_nodes) in H. simpl in H.
      apply (f_equal (@length _)) in H. rewrite length_app in H. simpl in H. lia.
    + intros [H|H]; discriminate.
Qed.

(** ** The extractor over whole documents *)

Lemma handle_endtag_in_excluded lower self st tag :
  _stack (handle_endtag lower st tag) = _stack self ->
  _in_excluded_text_context (handle_endtag lower st tag)
  = _in_excluded_text_context self.
Proof. unfold _in_excluded_text_context. intros ->. reflexivity. Qed.

(** X3: closing an element restores the nesting stack, and with it the
    excluded-context status, to what it was before the element was opened,
    also when elements opened inside it were never closed. *)
Theorem open_close_round_trip (lower : str -> str) (self st : VariantExtractor)
    (tag : str) (attrs : list (str * option str)) (opened : list str) :
  _stack st = _stack (handle_starttag lower self tag attrs) ++ opened ->
  lower tag ∉ opened ->
  _stack (handle_endtag lower st tag) = _stack self /\
  _in_excluded_text_context (handle_endtag lower st tag)
  = _in_excluded_text_context self.
Proof.
  intros Hst Hnot.
  assert (H : _stack (handle_endtag lower st tag) = _stack self).
  { unfold handle_endtag. cbn [_stack]. rewrite Hst, handle_starttag_stack.
    rewrite <- app_assoc. cbn [app].
    apply endtag_loop_found; [exact Hnot|].
    rewrite length_app. simpl. lia. }
  split; [exact H|]. apply handle_endtag_in_excluded, H.
Qed.

Lemma open_close_round_trip_witness :
  _stack (handle_endtag ascii_lower
            (feed_events ascii_lower
               (handle_starttag ascii_lower
                  (mkExtractor [u "body"] [] ∅ ∅) (u "SVG") [])
               [StartTag (u "g") []; StartTag (u "path") []])
            (u "svg"))
  = [u "body"] /\
  _in_excluded_text_context
    (handle_endtag ascii_lower
       (feed_events ascii_lower
          (handle_starttag ascii_lower (mkExtractor [u "body"] [] ∅ ∅) (u "SVG") [])
          [StartTag (u "g") []; StartTag (u "path") []])
       (u "svg"))
  = false.
Proof.
  apply (open_close_round_trip ascii_lower (mkExtractor [u "body"] [] ∅ ∅) _
           (u "svg") [] [u "g"; u "path"]).
  - vm_compute. reflexivity.
  - vm_compute. intros H. apply list_elem_of_In in H. simpl in H.
    intuition discriminate.
Defined.

Lemma handle_monotone lower self e :
  text_nodes self `prefix_of` text_nodes (handle lower self e) /\
  ids self ⊆ ids (handle lower self e) /\
  anchor_hrefs self ⊆ anchor_hrefs (handle lower self e).
Proof.
  destruct e as [tag attrs|tag|data]; simpl.
  - rewrite handle_starttag_text_nodes. split; [reflexivity|]. split.
    + intros v Hv.
      destruct (decide (u "svg" ∈ _stack self ++ [lower tag])) as [Hsvg|Hsvg].
      * rewrite (handle_starttag_ids_svg _ _ _ _ Hsvg). exact Hv.
      * apply (handle_starttag_ids _ _ _ _ _ Hsvg). auto.
    + intros h Hh. apply handle_starttag_hrefs. auto.
  - split; [reflexivity|]. split; reflexivity.
  - unfold handle_data. destruct (_in_excluded_text_context self).
    { split; [reflexivity|]. split; reflexivity. }
    destruct (_normalize_text data).
    { split; [reflexivity|]. split; reflexivity. }
    simpl. split; [apply prefix_app_r; reflexivity|]. split; reflexivity.
Qed.

(** X4: no handler ever removes or reorders what was collected: after any
    further events the earlier text nodes are a prefix of [text_nodes], and
    the earlier ids and hrefs are still in their sets. *)
Theorem extraction_monotone (lower : str -> str) (self : VariantExtractor)
    (evs : list event) :
  text_nodes self `prefix_of` text_nodes (feed_events lower self evs) /\
  ids self ⊆ ids (feed_events lower self evs) /\
  anchor_hrefs self ⊆ anchor_hrefs (feed_events lower self evs).
Proof.
  revert self. induction evs as [|e evs IH]; intros self.
  - split; [reflexivity|]. split; reflexivity.
  - simpl. destruct (handle_monotone lower self e) as (H1 & H2 & H3).
    destruct (IH (handle lower self e)) as (I1 & I2 & I3).
    split; [etrans; eassumption|]. split; etrans; eassumption.
Qed.

(** X5: the anchor hrefs of a whole document are exactly the values,
    empty ones included, of the [href] attributes of the start tags whose
    lower-cased name is [a]; neither an svg ancestor nor any other context
    keeps one out. *)
Theorem document_hrefs (lower : str -> str) (evs : list event) (h : str) :
  h ∈ anchor_hrefs (feed_events lower init evs) <->
  exists pre tag attrs post,
    evs = pre ++ StartTag tag attrs :: post /\
    href_value lower (lower tag) attrs h.
Proof.
  induction evs as [|e evs IH] using rev_ind.
  - split.
    + intros H. apply not_elem_of_empty in H. contradiction.
    + intros (pre & tag & attrs & post & H & _). destruct pre; discriminate.
  - rewrite feed_events_snoc.
    assert (Hkeep : anchor_hrefs (handle lower (feed_events lower init evs) e)
                    = anchor_hrefs (feed_events lower init evs) ->
      (forall tag attrs, e <> StartTag tag attrs) ->
      h ∈ anchor_hrefs (handle lower (feed_events lower init evs) e) <->
      exists pre tag attrs post,
        evs ++ [e] = pre ++ StartTag tag attrs :: post /\
        href_value lower (lower tag) attrs h).
    { intros -> Hne. rewrite IH. split.
      - intros (pre & tag & attrs & post & -> & H).
        exists pre, tag, attrs, (post ++ [e]). rewrite <- app_assoc. auto.
      - intros (pre & tag & attrs & post & Heq & Hv).
        apply snoc_eq_middle in Heq as [(-> & -> & <-)|(post' & -> & ->)].
        + exfalso. eapply Hne. reflexivity.
        + eauto 10. }
    destruct e as [tag attrs|tag|data].
    + simpl. rewrite handle_starttag_hrefs, IH. split.
      * intros [(pre & t & a & post & -> & H)|Hv].
        -- exists pre, t, a, (post ++ [StartTag tag attrs]).
           rewrite <- app_assoc. auto.
        -- exists evs, tag, attrs, []. auto.
      * intros (pre & t & a & post & Heq & Hv).
        apply snoc_eq_middle in Heq as [(-> & -> & [= -> ->])|(post' & -> & ->)].
        -- auto.
        -- left. eauto 10.
    + apply Hkeep; [reflexivity|discriminate].
    + apply Hkeep; [|discriminate]. simpl. unfold handle_data.
      repeat case_match; reflexivity.
Qed.

Lemma text_nodes_origin_witness :
  exists pre data post,
    [StartTag (u "p") []; Text (u " Hello   world "); EndTag (u "p")]
      = pre ++ Text data :: post /\
    _in_excluded_text_context (feed_events ascii_lower init pre) = false /\
    u "Hello world" = _normalize_text data.
Proof.
  apply (text_nodes_origin ascii_lower
           [StartTag (u "p") []; Text (u " Hello   world "); EndTag (u "p")]
           (u "Hello world")).
  vm_compute. apply list_elem_of_here.
Defined.

(** ** Inside an element *)

Lemma endtag_loop_keeps_prefix P Q t :
  t ∉ P -> exists Q', endtag_loop (P ++ Q) t (length (P ++ Q)) = P ++ Q'.
Proof.
  intros HP. destruct (decide (t ∈ Q)) as [HQ|HQ].
  - apply list_elem_of_split_r in HQ as (q1 & q2 & -> & Hq2).
    exists q1. rewrite app_assoc. rewrite endtag_loop_found; [reflexivity|exact Hq2|].
    rewrite !length_app. simpl. lia.
  - exists Q. apply endtag_loop_absent. rewrite elem_of_app. tauto.
Qed.

Lemma handle_data_ids self data : ids (handle_data self data) = ids self.
Proof. unfold handle_data. repeat case_match; reflexivity. Qed.

(** While no end tag matches the open elements [P], they stay open, text
    is dropped if one of them is excluded, and ids are dropped if one of
    them is svg. *)
Lemma inside_prefix lower P inner : forall st,
  (exists Q, _stack st = P ++ Q) ->
  (forall t, EndTag t ∈ inner -> lower t ∉ P) ->
  (exists Q, _stack (feed_events lower st inner) = P ++ Q) /\
  ((exists tag, tag ∈ P /\ excluded_tag tag) ->
     text_nodes (feed_events lower st inner) = text_nodes st) /\
  (u "svg" ∈ P -> ids (feed_events lower st inner) = ids st).
Proof.
  induction inner as [|e inner IH]; intros st [Q HQ] Hend.
  { split; [exists Q; exact HQ|]. split; reflexivity. }
  assert (Hend' : forall t, EndTag t ∈ inner -> lower t ∉ P).
  { intros t Ht. apply Hend. apply list_elem_of_further, Ht. }
  assert (Hstep : (exists Q', _stack (handle lower st e) = P ++ Q') /\
    ((exists tag, tag ∈ P /\ excluded_tag tag) ->
       text_nodes (handle lower st e) = text_nodes st) /\
    (u "svg" ∈ P -> ids (handle lower st e) = ids st)).
  { destruct e as [tag attrs|tag|data]; simpl.
    - split; [|split].
      + exists (Q ++ [lower tag]). rewrite handle_starttag_stack, HQ, app_assoc.
        reflexivity.
      + intros _. apply handle_starttag_text_nodes.
      + intros Hsvg. apply handle_starttag_ids_svg. rewrite HQ, !elem_of_app. auto.
    - split; [|split; reflexivity].
      unfold handle_endtag. cbn [_stack]. rewrite HQ.
      apply endtag_loop_keeps_prefix, Hend, list_elem_of_here.
    - split; [|split].
      + exists Q. rewrite <- HQ. unfold handle_data. repeat case_match; reflexivity.
      + intros (tag & Hin & Hex). rewrite handle_data_excluded; [reflexivity|].
        apply in_excluded_text_context_true. exists tag. split; [|exact Hex].
        rewrite HQ, elem_of_app. auto.
      + intros _. apply handle_data_ids. }
  destruct Hstep as (Hs & Ht & Hi).
  destruct (IH (handle lower st e) Hs Hend') as (Is & It & Ii).
  simpl. split; [exact Is|]. split.
  - intros H. rewrite (It H). apply Ht, H.
  - intros H. rewrite (Ii H). apply Hi, H.
Qed.

(** X8: inside an excluded element text is dropped at any depth: after
    the start tag of a [script], [style], [svg] or [defs] element, no
    sequence of events adds a text node as long as none of them is an end
    tag naming that element or an element open around it. *)
Theorem excluded_element_drops_text (lower : str -> str) (self : VariantExtractor)
    (tag : str) (attrs : list (str * option str)) (inner : list event) :
  excluded_tag (lower tag) ->
  (forall t, EndTag t ∈ inner -> lower t ∉ _stack self ++ [lower tag]) ->
  text_nodes (feed_events lower (handle_starttag lower self tag attrs) inner)
  = text_nodes self.
Proof.
  intros Hex Hend.
  destruct (inside_prefix lower (_stack self ++ [lower tag]) inner
              (handle_starttag lower self tag attrs)) as (_ & Ht & _).
  - exists []. rewrite handle_starttag_stack, app_nil_r. reflexivity.
  - exact Hend.
  - rewrite Ht; [apply handle_starttag_text_nodes|].
    exists (lower tag). split; [|exact Hex].
    rewrite elem_of_app, list_elem_of_singleton. auto.
Qed.

Lemma excluded_element_drops_text_witness :
  text_nodes (feed_events ascii_lower
                (handle_starttag ascii_lower (mkExtractor [u "body"] [u "Title"] ∅ ∅)
                                 (u "SVG") [])
                [StartTag (u "g") []; Text (u "label"); EndTag (u "g");
                 StartTag (u "text") []; Text (u "42"); EndTag (u "p")])
  = [u "Title"].
Proof.
  apply (excluded_element_drops_text ascii_lower
           (mkExtractor [u "body"] [u "Title"] ∅ ∅) (u "SVG") []).
  - right. right. left. vm_compute. reflexivity.
  - intros t Ht. apply list_elem_of_In in Ht. simpl in Ht.
    destruct Ht as [Ht|[Ht|[Ht|[Ht|[Ht|[Ht|[]]]]]]]; try discriminate;
      injection Ht as <-; vm_compute; intros H; apply list_elem_of_In in H;
      simpl in H; intuition discriminate.
Defined.

(** X9: inside an svg element no id is collected at any depth: after the
    start tag of an [svg] element, no sequence of events adds an id as long
    as none of them is an end tag naming that element or an element open
    around it. *)
Theorem svg_element_drops_ids (lower : str -> str) (self : VariantExtractor)
    (tag : str) (attrs : list (str * option str)) (inner : list event) :
  lower tag = u "svg" ->
  (forall t, EndTag t ∈ inner -> lower t ∉ _stack self ++ [lower tag]) ->
  ids (feed_events lower (handle_starttag lower self tag attrs) inner) = ids self.
Proof.
  intros Hsvg Hend.
  assert (Hin : u "svg" ∈ _stack self ++ [lower tag]).
  { rewrite Hsvg, elem_of_app, list_elem_of_singleton. auto. }
  destruct (inside_prefix lower (_stack self ++ [lower tag]) inner
              (handle_starttag lower self tag attrs)) as (_ & _ & Hi).
  - exists []. rewrite handle_starttag_stack, app_nil_r. reflexivity.
  - exact Hend.
  - rewrite (Hi Hin). apply handle_starttag_ids_svg, Hin.
Qed.

Lemma svg_element_drops_ids_witness :
  ids (feed_events ascii_lower
         (handle_starttag ascii_lower (mkExtractor [] [] {[ u "hero" ]} ∅)
                          (u "svg") [(u "id", Some (u "logo"))])
         [StartTag (u "defs") []; StartTag (u "path") [(u "id", Some (u "p1"))];
          EndTag (u "defs")])
  = {[ u "hero" ]}.
Proof.
  refine (svg_element_drops_ids ascii_lower (mkExtractor [] [] {[ u "hero" ]} ∅)
            (u "svg") [(u "id", Some (u "logo"))]
            [StartTag (u "defs") []; StartTag (u "path") [(u "id", Some (u "p1"))];
             EndTag (u "defs")] _ _).
  - vm_compute. reflexivity.
  - intros t Ht. apply list_elem_of_In in Ht. simpl in Ht.
    destruct Ht as [Ht|[Ht|[Ht|[]]]]; try discriminate.
    injection Ht as <-. vm_compute. intros H. apply list_elem_of_In in H.
    simpl in H. intuition discriminate.
Defined.

(** ** The diff preview *)

Lemma diff_loop_spec a b limit idxs : forall shown,
  diff_loop a b limit idxs shown
  = map (preview_entry a b)
        (take (max 1 (limit - shown)) (List.filter (differs a b) idxs)).
Proof.
  induction idxs as [|i idxs IH]; intros shown; simpl.
  - rewrite take_nil. reflexivity.
  - unfold differs at 1, shown_at, MISSING.
    destruct (decide (default (u "<missing>") (a !! i)
                      = default (u "<missing>") (b !! i))) as [He|Hne].
    + rewrite (bool_decide_eq_true_2 _ He). simpl. apply IH.
    + rewrite (bool_decide_eq_false_2 _ Hne). simpl.
      destruct (Nat.leb_spec limit (S shown)) as [Hle|Hgt].
      * replace (max 1 (limit - shown)) with 1 by lia. simpl.
        try rewrite take_0. reflexivity.
      * replace (max 1 (limit - shown)) with (S (max 1 (limit - S shown))) by lia.
        simpl. rewrite IH. reflexivity.
Qed.

(** X10: what the loop of [_diff_preview] computes: the entries of the
    first [limit] indices at which the two sequences show different values,
    an index out of range showing the placeholder; a limit of zero still
    lets one entry through, since the limit is tested after the append. *)
Theorem diff_preview_spec (a b : list str) (limit : nat) :
  _diff_preview a b limit
  = map (preview_entry a b)
        (take (max 1 limit)
              (List.filter (differs a b) (seq 0 (max (length a) (length b))))) /\
  length (_diff_preview a b limit) <= max 1 limit.
Proof.
  assert (H : _diff_preview a b limit
    = map (preview_entry a b)
        (take (max 1 limit)
              (List.filter (differs a b) (seq 0 (max (length a) (length b)))))).
  { unfold _diff_preview. rewrite diff_loop_spec, Nat.sub_0_r. reflexivity. }
  split; [exact H|].
  rewrite H, length_map, length_take. lia.
Qed.

Lemma diff_loop_nil a b limit idxs shown :
  diff_loop a b limit idxs shown = [] <->
  forall i, i ∈ idxs -> shown_at a i = shown_at b i.
Proof.
  revert shown. induction idxs as [|i idxs IH]; intros shown; simpl.
  - split; [|reflexivity]. intros _ i Hi. apply elem_of_nil in Hi. contradiction.
  - destruct (decide (default (u "<missing>") (a !! i)
                      = default (u "<missing>") (b !! i))) as [He|Hne].
    + rewrite IH. split.
      * intros H j Hj. apply elem_of_cons in Hj as [->|Hj]; [exact He|auto].
      * intros H j Hj. apply H. apply elem_of_cons. auto.
    + split; [discriminate|]. intros H. exfalso. apply Hne.
      apply (H i). apply list_elem_of_here.
Qed.

Lemma shown_at_eq_all a b :
  MISSING ∉ a -> MISSING ∉ b ->
  (forall i, i < max (length a) (length b) -> shown_at a i = shown_at b i) ->
  a = b.
Proof.
  intros Ha Hb H. apply list_eq. intros i.
  destruct (a !! i) as [x|] eqn:Ea; destruct (b !! i) as [y|] eqn:Eb.
  - pose proof (lookup_lt_Some _ _ _ Ea) as Hi.
    specialize (H i ltac:(lia)). unfold shown_at in H. rewrite Ea, Eb in H.
    simpl in H. congruence.
  - pose proof (lookup_lt_Some _ _ _ Ea) as Hi.
    specialize (H i ltac:(lia)). unfold shown_at in H. rewrite Ea, Eb in H.
    simpl in H. exfalso. apply Ha. rewrite <- H.
    eapply list_elem_of_lookup_2, Ea.
  - pose proof (lookup_lt_Some _ _ _ Eb) as Hi.
    specialize (H i ltac:(lia)). unfold shown_at in H. rewrite Ea, Eb in H.
    simpl in H. exfalso. apply Hb. rewrite H.
    eapply list_elem_of_lookup_2, Eb.
  - reflexivity.
Qed.

(** X11: as long as no text node is the placeholder string itself, the
    preview is empty exactly when the two sequences are equal: a text
    mismatch always comes with at least one entry. *)
Theorem diff_preview_empty_iff (a b : list str) (limit : nat) :
  MISSING ∉ a -> MISSING ∉ b ->
  (_diff_preview a b limit = [] <-> a = b).
Proof.
  intros Ha Hb. unfold _diff_preview. rewrite diff_loop_nil. split.
  - intros H. apply shown_at_eq_all; [exact Ha|exact Hb|].
    intros i Hi. apply H. apply elem_of_seq. lia.
  - intros -> i _. reflexivity.
Qed.

Lemma diff_preview_empty_iff_witness :
  _diff_preview [u "Hello"; u "World"] [u "Hello"] 10 <> [].
Proof.
  intros H.
  apply (diff_preview_empty_iff [u "Hello"; u "World"] [u "Hello"] 10) in H.
  - discriminate.
  - vm_compute. intros Hin. apply list_elem_of_In in Hin. simpl in Hin.
    intuition discriminate.
  - vm_compute. intros Hin. apply list_elem_of_In in Hin. simpl in Hin.
    intuition discriminate.
Defined.

(** Without that proviso it fails: a text node that reads like the
    placeholder is taken for a missing one. *)
Example diff_preview_placeholder_clash :
  [MISSING] <> [] /\ _diff_preview [MISSING] [] 10 = [].
Proof. split; [discriminate|]. vm_compute. reflexivity. Qed.

(** ** Counters and the unordered report *)

Lemma counter_incr_keys c e :
  map fst (counter_incr c e)
  = if decide (e ∈ map fst c) then map fst c else map fst c ++ [e].
Proof.
  induction c as [|[k n] c IH]; simpl.
  - destruct (decide (e ∈ [])) as [H|_]; [|reflexivity].
    apply elem_of_nil in H. contradiction.
  - destruct (decide (k = e)) as [->|Hne]; simpl.
    + destruct (decide (e ∈ e :: map fst c)) as [_|H]; [reflexivity|].
      exfalso. apply H, list_elem_of_here.
    + rewrite IH.
      destruct (decide (e ∈ map fst c)) as [Hin|Hnot];
        destruct (decide (e ∈ k :: map fst c)) as [Hin'|Hnot']; try reflexivity.
      * exfalso. apply Hnot', list_elem_of_further, Hin.
      * exfalso. apply elem_of_cons in Hin' as [H|H]; [congruence|contradiction].
Qed.

Lemma counter_fold_keys l : forall c,
  NoDup (map fst c) ->
  NoDup (map fst (fold_left counter_incr l c)) /\
  forall k, k ∈ map fst (fold_left counter_incr l c) <-> k ∈ map fst c \/ k ∈ l.
Proof.
  induction l as [|x l IH]; intros c Hc; simpl.
  - split; [exact Hc|]. intros k. rewrite elem_of_nil. tauto.
  - assert (Hx : NoDup (map fst (counter_incr c x))).
    { rewrite counter_incr_keys. destruct (decide (x ∈ map fst c)); [exact Hc|].
      apply NoDup_app. split; [exact Hc|]. split; [|apply NoDup_singleton].
      intros y Hy Hy'. apply list_elem_of_singleton in Hy'. congruence. }
    destruct (IH _ Hx) as [Hn Hk]. split; [exact Hn|].
    intros k. rewrite Hk, counter_incr_keys, elem_of_cons.
    destruct (decide (x ∈ map fst c)) as [Hin|Hnot].
    + split; [tauto|]. intros [?|[->|?]]; auto.
    + rewrite elem_of_app, list_elem_of_singleton. split; [tauto|].
      intros [?|[->|?]]; auto.
Qed.

Lemma counter_get_elem c k : k ∈ map fst c -> (k, counter_get c k) ∈ c.
Proof.
  induction c as [|[k' n] c IH]; simpl.
  - intros H. apply elem_of_nil in H. contradiction.
  - intros H. destruct (decide (k' = k)) as [->|Hne].
    + apply list_elem_of_here.
    + apply list_elem_of_further, IH.
      apply elem_of_cons in H as [H|H]; [congruence|exact H].
Qed.

Lemma elem_counter_get c k n :
  NoDup (map fst c) -> (k, n) ∈ c -> counter_get c k = n.
Proof.
  induction c as [|[k' m] c IH]; simpl.
  - intros _ H. apply elem_of_nil in H. contradiction.
  - intros Hnd H. apply NoDup_cons in Hnd as [Hk' Hnd].
    apply elem_of_cons in H as [H|H].
    + injection H as -> ->. rewrite decide_True by reflexivity. reflexivity.
    + destruct (decide (k' = k)) as [->|Hne].
      * exfalso. apply Hk'. apply list_elem_of_fmap. exists (k, n). auto.
      * apply IH; assumption.
Qed.

Lemma count_pos_elem l k : 0 < count l k <-> k ∈ l.
Proof.
  split.
  - intros H. apply list_elem_of_In.
    apply (count_occ_In (fun x y : str => decide (x = y))). exact H.
  - intros H. apply list_elem_of_In in H.
    apply (count_occ_In (fun x y : str => decide (x = y))) in H. exact H.
Qed.

Lemma Counter_keys l :
  NoDup (map fst (Counter l)) /\ forall k, k ∈ map fst (Counter l) <-> k ∈ l.
Proof.
  destruct (counter_fold_keys l [] (NoDup_nil_2)) as [Hn Hk].
  split; [exact Hn|]. intros k. unfold Counter. rewrite Hk, elem_of_nil. tauto.
Qed.

Lemma elem_of_Counter l k n :
  (k, n) ∈ Counter l <-> k ∈ l /\ n = count l k.
Proof.
  destruct (Counter_keys l) as [Hn Hk]. split.
  - intros H. split.
    + apply Hk. apply list_elem_of_fmap. exists (k, n). auto.
    + rewrite <- counter_get_Counter. symmetry. apply elem_counter_get; assumption.
  - intros [Hin ->]. rewrite <- counter_get_Counter.
    apply counter_get_elem, Hk, Hin.
Qed.

(** X12: [Counter(text_nodes)] holds each distinct text node once, with the
    number of its occurrences; a text that does not occur has no entry and
    reads as zero. *)
Theorem Counter_counts (l : list str) :
  NoDup (map fst (Counter l)) /\
  (forall k n, (k, n) ∈ Counter l <-> k ∈ l /\ n = count l k) /\
  (forall k, k ∉ l -> counter_get (Counter l) k = 0).
Proof.
  split; [apply Counter_keys|]. split; [apply elem_of_Counter|].
  intros k Hk. rewrite counter_get_Counter.
  destruct (count l k) eqn:E; [reflexivity|].
  exfalso. apply Hk, count_pos_elem. lia.
Qed.

Lemma elem_of_counter_sub c d k n :
  (k, n) ∈ counter_sub c d <->
  exists m, (k, m) ∈ c /\ counter_get d k < m /\ n = m - counter_get d k.
Proof.
  induction c as [|[e m] c IH]; simpl.
  - split.
    + intros H. apply elem_of_nil in H. contradiction.
    + intros (m & H & _). apply elem_of_nil in H. contradiction.
  - destruct (Nat.ltb_spec 0 (m - counter_get d e)) as [Hpos|Hnot].
    + rewrite elem_of_cons, IH. split.
      * intros [H|(m' & H & Hm)].
        -- injection H as -> ->. exists m. split; [apply list_elem_of_here|lia].
        -- exists m'. split; [apply list_elem_of_further, H|exact Hm].
      * intros (m' & H & Hm). apply elem_of_cons in H as [H|H].
        -- injection H as -> ->. left. f_equal. lia.
        -- right. exists m'. auto.
    + rewrite IH. split.
      * intros (m' & H & Hm). exists m'. split; [apply list_elem_of_further, H|exact Hm].
      * intros (m' & H & Hm). apply elem_of_cons in H as [H|H].
        -- injection H as -> ->. lia.
        -- exists m'. auto.
Qed.

Lemma elem_of_counter_sub_Counter a b k n :
  (k, n) ∈ counter_sub (Counter a) (Counter b) <->
  count b k < count a k /\ n = count a k - count b k.
Proof.
  rewrite elem_of_counter_sub. split.
  - intros (m & H & Hlt & ->). apply elem_of_Counter in H as [_ ->].
    rewrite counter_get_Counter in *. auto.
  - intros [Hlt ->]. exists (count a k). rewrite counter_get_Counter.
    split; [|auto]. apply elem_of_Counter. split; [|reflexivity].
    apply count_pos_elem. lia.
Qed.

Lemma counter_sub_both_nil a b :
  counter_sub (Counter a) (Counter b) = [] /\
  counter_sub (Counter b) (Counter a) = [] <-> Permutation a b.
Proof.
  rewrite (Permutation_count_occ (fun x y : str => decide (x = y))). split.
  - intros [H1 H2] k.
    destruct (Nat.lt_trichotomy (count a k) (count b k)) as [Hlt|[He|Hgt]];
      [exfalso|exact He|exfalso].
    + assert (H : (k, count b k - count a k) ∈ counter_sub (Counter b) (Counter a))
        by (apply elem_of_counter_sub_Counter; auto).
      rewrite H2 in H. apply elem_of_nil in H. exact H.
    + assert (H : (k, count a k - count b k) ∈ counter_sub (Counter a) (Counter b))
        by (apply elem_of_counter_sub_Counter; auto).
      rewrite H1 in H. apply elem_of_nil in H. exact H.
  - intros H. split.
    + destruct (counter_sub (Counter a) (Counter b)) as [|[k n] r] eqn:E;
        [reflexivity|].
      assert (Hin : (k, n) ∈ counter_sub (Counter a) (Counter b))
        by (rewrite E; apply list_elem_of_here).
      apply elem_of_counter_sub_Counter in Hin. specialize (H k). lia.
    + destruct (counter_sub (Counter b) (Counter a)) as [|[k n] r] eqn:E;
        [reflexivity|].
      assert (Hin : (k, n) ∈ counter_sub (Counter b) (Counter a))
        by (rewrite E; apply list_elem_of_here).
      apply elem_of_counter_sub_Counter in Hin. specialize (H k). lia.
Qed.

(** X13: the difference of two counters lists a text exactly when it occurs
    more often on the left, with the surplus as its count; so no text is
    both missing and extra, and both differences are empty exactly when the
    two sequences are permutations of one another. *)
Theorem counter_sub_surplus (a b : list str) :
  (forall k n, (k, n) ∈ counter_sub (Counter a) (Counter b) <->
               count b k < count a k /\ n = count a k - count b k) /\
  (forall k n m, (k, n) ∈ counter_sub (Counter a) (Counter b) ->
                 (k, m) ∈ counter_sub (Counter b) (Counter a) -> False) /\
  (counter_sub (Counter a) (Counter b) = [] /\
   counter_sub (Counter b) (Counter a) = [] <-> Permutation a b).
Proof.
  split; [apply elem_of_counter_sub_Counter|]. split.
  - intros k n m H1 H2.
    apply elem_of_counter_sub_Counter in H1, H2. lia.
  - apply counter_sub_both_nil.
Qed.

(** *** [most_common] *)

Lemma insert_desc_perm x l : insert_desc x l ≡ₚ x :: l.
Proof.
  induction l as [|y l IH]; simpl; [reflexivity|].
  destruct (snd y <=? snd x); [reflexivity|].
  rewrite IH. apply perm_swap.
Qed.

Lemma sort_desc_perm c : foldr insert_desc [] c ≡ₚ c.
Proof.
  induction c as [|x c IH]; simpl; [reflexivity|].
  rewrite insert_desc_perm, IH. reflexivity.
Qed.

Lemma insert_desc_sorted x l :
  StronglySorted count_ge l -> StronglySorted count_ge (insert_desc x l).
Proof.
  induction l as [|y l IH]; simpl; intros Hs.
  - repeat constructor.
  - apply StronglySorted_cons in Hs as [Hy Hs].
    destruct (Nat.leb_spec (snd y) (snd x)) as [Hle|Hgt].
    + apply StronglySorted_cons. split.
      * constructor; [exact Hle|].
        eapply Forall_impl; [exact Hy|]. unfold count_ge. intros z Hz. simpl in *. lia.
      * apply StronglySorted_cons. auto.
    + apply StronglySorted_cons. split; [|apply IH, Hs].
      rewrite insert_desc_perm. constructor; [|exact Hy].
      unfold count_ge. lia.
Qed.

Lemma sort_desc_sorted c : StronglySorted count_ge (foldr insert_desc [] c).
Proof.
  induction c as [|x c IH]; simpl; [constructor|].
  apply insert_desc_sorted, IH.
Qed.

(** X14: [most_common(n)] returns [min n (len c)] entries of the counter,
    in descending order of count, and no entry left out has a larger count
    than one returned. *)
Theorem most_common_spec (n : nat) (c : counter) :
  exists rest,
    c ≡ₚ most_common n c ++ rest /\
    StronglySorted count_ge (most_common n c) /\
    (forall x y, x ∈ most_common n c -> y ∈ rest -> snd y <= snd x) /\
    length (most_common n c) = min n (length c).
Proof.
  exists (drop n (foldr insert_desc [] c)). unfold most_common.
  pose proof (sort_desc_sorted c) as Hs.
  rewrite <- (take_drop n (foldr insert_desc [] c)) in Hs.
  split; [rewrite take_drop; symmetry; apply sort_desc_perm|].
  split; [eapply StronglySorted_app_1_l, Hs|].
  split.
  - intros x y Hx Hy. exact (StronglySorted_app_1_elem_of _ _ _ _ _ Hs Hx Hy).
  - rewrite length_take, (Permutation_length (sort_desc_perm c)). reflexivity.
Qed.

Lemma most_common_subset n c x : x ∈ most_common n c -> x ∈ c.
Proof.
  unfold most_common. intros H. apply elem_of_take in H as (i & H & _).
  apply list_elem_of_lookup_2 in H. rewrite sort_desc_perm in H. exact H.
Qed.

(** ** The reports *)

Lemma str_leb_total a : forall b, str_leb a b = true \/ str_leb b a = true.
Proof.
  induction a as [|x a IH]; intros [|y b]; simpl; auto.
  destruct (N.ltb_spec x y); [auto|].
  destruct (N.ltb_spec y x); [auto|]. apply IH.
Qed.

Lemma str_leb_trans a : forall b c,
  str_leb a b = true -> str_leb b c = true -> str_leb a c = true.
Proof.
  induction a as [|x a IH]; intros [|y b] [|z c]; simpl; auto; try discriminate.
  destruct (N.ltb_spec x y); destruct (N.ltb_spec y z);
    destruct (N.ltb_spec x z); try reflexivity; try lia;
    destruct (N.ltb_spec y x); destruct (N.ltb_spec z y);
    destruct (N.ltb_spec z x); try discriminate; try lia; auto.
  apply IH.
Qed.

Lemma str_le_total : Total str_le.
Proof.
  intros a b. unfold str_le.
  destruct (str_leb_total a b) as [H|H]; rewrite H; simpl; auto.
Qed.

Lemma str_le_trans : Transitive str_le.
Proof.
  intros a b c. unfold str_le. intros H1 H2.
  apply Is_true_true in H1, H2. apply Is_true_true.
  eapply str_leb_trans; eassumption.
Qed.

Lemma sorted_perm (X : gset str) : sorted X ≡ₚ elements X.
Proof. unfold sorted. apply merge_sort_Permutation. Qed.

Lemma sorted_sorted (X : gset str) : StronglySorted str_le (sorted X).
Proof.
  unfold sorted.
  apply (@StronglySorted_merge_sort _ str_le _ str_le_trans str_le_total).
Qed.

Lemma nonempty_true {A} (l : list A) : nonempty l = true <-> l <> [].
Proof. destruct l; simpl; split; congruence. Qed.

Lemma sorted_nonempty (X : gset str) : nonempty (sorted X) = true <-> X <> ∅.
Proof.
  rewrite nonempty_true. split.
  - intros H ->. apply H. apply Permutation_nil_r.
    rewrite sorted_perm, elements_empty. reflexivity.
  - intros H Hs. apply H. apply leibniz_equiv, elements_empty_inv.
    apply Permutation_nil_r. rewrite <- sorted_perm, Hs. reflexivity.
Qed.

Lemma str_leb_antisym a : forall b,
  str_leb a b = true -> str_leb b a = true -> a = b.
Proof.
  induction a as [|x a IH]; intros [|y b]; simpl; try congruence.
  destruct (N.ltb_spec x y); destruct (N.ltb_spec y x);
    try discriminate; try lia.
  intros H1 H2. assert (x = y) as -> by lia. f_equal. apply IH; assumption.
Qed.

Lemma str_le_antisym : AntiSymm (=) str_le.
Proof.
  intros a b H1 H2. unfold str_le in *.
  apply Is_true_true in H1, H2. apply str_leb_antisym; assumption.
Qed.

(** A set has one ascending listing. *)
Lemma ascending_listing_unique (X : gset str) (l1 l2 : list str) :
  ascending_listing X l1 -> ascending_listing X l2 -> l1 = l2.
Proof.
  intros (Hs1 & Hn1 & Hin1) (Hs2 & Hn2 & Hin2).
  apply (@StronglySorted_unique _ str_le str_le_antisym); try assumption.
  apply NoDup_Permutation; try assumption.
  intros x. rewrite Hin1, Hin2. reflexivity.
Qed.

Lemma sorted_ascending (X : gset str) : ascending_listing X (sorted X).
Proof.
  split; [apply sorted_sorted|]. split.
  - rewrite sorted_perm. apply NoDup_elements.
  - intros x. rewrite sorted_perm. apply elem_of_elements.
Qed.

Lemma sorted_listing (X : gset str) :
  X <> ∅ -> listing X (length (sorted X)) (take 30 (sorted X)).
Proof.
  intros Hne.
  assert (Hlen : length (sorted X) = size X).
  { rewrite (Permutation_length (sorted_perm X)). reflexivity. }
  unfold listing. split; [exact Hlen|]. split.
  { rewrite Hlen. apply Nat.neq_0_lt_0. apply size_non_empty_iff.
    intros H. apply Hne. apply leibniz_equiv, H. }
  exists (sorted X). split; [apply sorted_ascending|]. split; reflexivity.
Qed.

(** What [listing] says of the names shown: they are the first thirty
    entries of every ascending listing of the set. *)
Lemma listing_first_thirty (X : gset str) (n : nat) (shown all : list str) :
  listing X n shown -> ascending_listing X all ->
  length all = n /\ shown = take 30 all.
Proof.
  intros (_ & _ & all' & Hall' & Hlen & ->) Hall.
  rewrite (ascending_listing_unique X all all' Hall Hall'). auto.
Qed.

Lemma check_ids_trace_eq b v ok :
  fst (check_ids b v ok)
  = if bool_decide (ids b = ids v) then []
    else Stderr IDSetMismatch ::
         (if nonempty (sorted (ids b ∖ ids v))
          then [Stderr (MissingIDs (length (sorted (ids b ∖ ids v)))
                                   (take 30 (sorted (ids b ∖ ids v))))]
          else [])
         ++ (if nonempty (sorted (ids v ∖ ids b))
             then [Stderr (ExtraIDs (length (sorted (ids v ∖ ids b)))
                                    (take 30 (sorted (ids v ∖ ids b))))]
             else []).
Proof.
  unfold check_ids. destruct (bool_decide _); simpl; [reflexivity|]. run_io.
  destruct (nonempty (sorted (ids b ∖ ids v)));
  destruct (nonempty (sorted (ids v ∖ ids b))); reflexivity.
Qed.

Lemma check_hrefs_trace_eq b v ok :
  fst (check_hrefs b v ok)
  = if bool_decide (anchor_hrefs b = anchor_hrefs v) then []
    else Stderr HrefSetMismatch ::
         (if nonempty (sorted (anchor_hrefs b ∖ anchor_hrefs v))
          then [Stderr (MissingHrefs (length (sorted (anchor_hrefs b ∖ anchor_hrefs v)))
                                     (take 30 (sorted (anchor_hrefs b ∖ anchor_hrefs v))))]
          else [])
         ++ (if nonempty (sorted (anchor_hrefs v ∖ anchor_hrefs b))
             then [Stderr (ExtraHrefs (length (sorted (anchor_hrefs v ∖ anchor_hrefs b)))
                                      (take 30 (sorted (anchor_hrefs v ∖ anchor_hrefs b))))]
             else []).
Proof.
  unfold check_hrefs. destruct (bool_decide _); simpl; [reflexivity|]. run_io.
  destruct (nonempty (sorted (anchor_hrefs b ∖ anchor_hrefs v)));
  destruct (nonempty (sorted (anchor_hrefs v ∖ anchor_hrefs b))); reflexivity.
Qed.

Lemma section_elem (X : gset str) (mk : nat -> list str -> line) (l : line) :
  Stderr l ∈ (if nonempty (sorted X)
              then [Stderr (mk (length (sorted X)) (take 30 (sorted X)))]
              else [])
  <-> X <> ∅ /\ l = mk (length (sorted X)) (take 30 (sorted X)).
Proof.
  pose proof (sorted_nonempty X) as HX.
  destruct (nonempty (sorted X)).
  - rewrite list_elem_of_singleton. split.
    + intros [= ->]. split; [tauto|reflexivity].
    + intros [_ ->]. reflexivity.
  - split.
    + intros H. apply elem_of_nil in H. contradiction.
    + intros [H _]. apply HX in H. discriminate.
Qed.

Lemma missing_ids_elem b v ok n shown :
  Stderr (MissingIDs n shown) ∈ fst (check_ids b v ok) <->
  ids b ∖ ids v <> ∅ /\ n = length (sorted (ids b ∖ ids v)) /\
  shown = take 30 (sorted (ids b ∖ ids v)).
Proof.
  rewrite check_ids_trace_eq.
  destruct (bool_decide_reflect (ids b = ids v)) as [Heq|Hne].
  - split.
    + intros H. apply elem_of_nil in H. contradiction.
    + intros [H _]. exfalso. apply H. rewrite Heq. apply difference_diag_L.
  - rewrite elem_of_cons, elem_of_app, !section_elem. split.
    + intros [H|[[Hn H]|[Hn H]]]; [discriminate| |discriminate].
      injection H as -> ->. auto.
    + intros (Hn & -> & ->). right. left. auto.
Qed.

Lemma extra_ids_elem b v ok n shown :
  Stderr (ExtraIDs n shown) ∈ fst (check_ids b v ok) <->
  ids v ∖ ids b <> ∅ /\ n = length (sorted (ids v ∖ ids b)) /\
  shown = take 30 (sorted (ids v ∖ ids b)).
Proof.
  rewrite check_ids_trace_eq.
  destruct (bool_decide_reflect (ids b = ids v)) as [Heq|Hne].
  - split.
    + intros H. apply elem_of_nil in H. contradiction.
    + intros [H _]. exfalso. apply H. rewrite Heq. apply difference_diag_L.
  - rewrite elem_of_cons, elem_of_app, !section_elem. split.
    + intros [H|[[Hn H]|[Hn H]]]; [discriminate|discriminate|].
      injection H as -> ->. auto.
    + intros (Hn & -> & ->). right. right. auto.
Qed.

(** X15: the id check. A "Missing IDs" line is printed exactly when some
    id of the base is absent from the variant, an "Extra IDs" line exactly
    when some id of the variant is absent from the base; each gives the
    true number of such ids and shows the first thirty entries of their
    ascending listing (all of them when there are at most thirty). *)
Theorem id_report (b v : VariantExtractor) (ok : bool) :
  (forall n shown, Stderr (MissingIDs n shown) ∈ fst (check_ids b v ok) ->
     listing (ids b ∖ ids v) n shown) /\
  (forall n shown, Stderr (ExtraIDs n shown) ∈ fst (check_ids b v ok) ->
     listing (ids v ∖ ids b) n shown) /\
  ((exists n shown, Stderr (MissingIDs n shown) ∈ fst (check_ids b v ok))
     <-> ids b ∖ ids v <> ∅) /\
  ((exists n shown, Stderr (ExtraIDs n shown) ∈ fst (check_ids b v ok))
     <-> ids v ∖ ids b <> ∅).
Proof.
  split; [|split; [|split]].
  - intros n shown H. apply missing_ids_elem in H as (Hne & -> & ->).
    apply sorted_listing, Hne.
  - intros n shown H. apply extra_ids_elem in H as (Hne & -> & ->).
    apply sorted_listing, Hne.
  - split.
    + intros (n & shown & H). apply missing_ids_elem in H. tauto.
    + intros Hne. eexists _, _. apply missing_ids_elem. eauto.
  - split.
    + intros (n & shown & H). apply extra_ids_elem in H. tauto.
    + intros Hne. eexists _, _. apply extra_ids_elem. eauto.
Qed.

Lemma missing_hrefs_elem b v ok n shown :
  Stderr (MissingHrefs n shown) ∈ fst (check_hrefs b v ok) <->
  anchor_hrefs b ∖ anchor_hrefs v <> ∅ /\
  n = length (sorted (anchor_hrefs b ∖ anchor_hrefs v)) /\
  shown = take 30 (sorted (anchor_hrefs b ∖ anchor_hrefs v)).
Proof.
  rewrite check_hrefs_trace_eq.
  destruct (bool_decide_reflect (anchor_hrefs b = anchor_hrefs v)) as [Heq|Hne].
  - split.
    + intros H. apply elem_of_nil in H. contradiction.
    + intros [H _]. exfalso. apply H. rewrite Heq. apply difference_diag_L.
  - rewrite elem_of_cons, elem_of_app, !section_elem. split.
    + intros [H|[[Hn H]|[Hn H]]]; [discriminate| |discriminate].
      injection H as -> ->. auto.
    + intros (Hn & -> & ->). right. left. auto.
Qed.

Lemma extra_hrefs_elem b v ok n shown :
  Stderr (ExtraHrefs n shown) ∈ fst (check_hrefs b v ok) <->
  anchor_hrefs v ∖ anchor_hrefs b <> ∅ /\
  n = length (sorted (anchor_hrefs v ∖ anchor_hrefs b)) /\
  shown = take 30 (sorted (anchor_hrefs v ∖ anchor_hrefs b)).
Proof.
  rewrite check_hrefs_trace_eq.
  destruct (bool_decide_reflect (anchor_hrefs b = anchor_hrefs v)) as [Heq|Hne].
  - split.
    + intros H. apply elem_of_nil in H. contradiction.
    + intros [H _]. exfalso. apply H. rewrite Heq. apply difference_diag_L.
  - rewrite elem_of_cons, elem_of_app, !section_elem. split.
    + intros [H|[[Hn H]|[Hn H]]]; [discriminate|discriminate|].
      injection H as -> ->. auto.
    + intros (Hn & -> & ->). right. right. auto.
Qed.

(** X16: the anchor href check reports in the same way: a "Missing hrefs"
    line exactly when some href of the base is absent from the variant, an
    "Extra hrefs" line exactly when some href of the variant is absent from
    the base, each with the true number of such hrefs and the first
    thirty entries of their ascending listing. *)
Theorem href_report (b v : VariantExtractor) (ok : bool) :
  (forall n shown, Stderr (MissingHrefs n shown) ∈ fst (check_hrefs b v ok) ->
     listing (anchor_hrefs b ∖ anchor_hrefs v) n shown) /\
  (forall n shown, Stderr (ExtraHrefs n shown) ∈ fst (check_hrefs b v ok) ->
     listing (anchor_hrefs v ∖ anchor_hrefs b) n shown) /\
  ((exists n shown, Stderr (MissingHrefs n shown) ∈ fst (check_hrefs b v ok))
     <-> anchor_hrefs b ∖ anchor_hrefs v <> ∅) /\
  ((exists n shown, Stderr (ExtraHrefs n shown) ∈ fst (check_hrefs b v ok))
     <-> anchor_hrefs v ∖ anchor_hrefs b <> ∅).
Proof.
  split; [|split; [|split]].
  - intros n shown H. apply missing_hrefs_elem in H as (Hne & -> & ->).
    apply sorted_listing, Hne.
  - intros n shown H. apply extra_hrefs_elem in H as (Hne & -> & ->).
    apply sorted_listing, Hne.
  - split.
    + intros (n & shown & H). apply missing_hrefs_elem in H. tauto.
    + intros Hne. eexists _, _. apply missing_hrefs_elem. eauto.
  - split.
    + intros (n & shown & H). apply extra_hrefs_elem in H. tauto.
    + intros Hne. eexists _, _. apply extra_hrefs_elem. eauto.
Qed.

Lemma check_text_unordered_trace b v ok :
  fst (check_text true b v ok)
  = if counter_eqb (Counter (text_nodes b)) (Counter (text_nodes v)) then []
    else [Stderr TextMismatchUnordered;
          Stderr (BaseTextNodes (length (text_nodes b)));
          Stderr (VarTextNodes (length (text_nodes v)))]
         ++ text_section MissingTextTop
              (counter_sub (Counter (text_nodes b)) (Counter (text_nodes v)))
         ++ text_section ExtraTextTop
              (counter_sub (Counter (text_nodes v)) (Counter (text_nodes b))).
Proof.
  unfold check_text, text_section.
  destruct (counter_eqb _ _); simpl; [reflexivity|]. run_io.
  destruct (nonempty (counter_sub (Counter (text_nodes b)) (Counter (text_nodes v))));
  destruct (nonempty (counter_sub (Counter (text_nodes v)) (Counter (text_nodes b))));
  simpl; rewrite ?app_nil_r; reflexivity.
Qed.

Lemma text_section_elem heading c l :
  Stderr l ∈ text_section heading c <->
  c <> [] /\ (l = heading \/ exists x, x ∈ most_common 20 c /\ l = counted x).
Proof.
  unfold text_section. pose proof (nonempty_true c) as Hc.
  destruct (nonempty c).
  - rewrite elem_of_cons, <- list_fmap_compose, list_elem_of_fmap. split.
    + intros [[= ->]|(x & [= ->] & Hx)]; (split; [tauto|]); eauto.
    + intros [_ [->|(x & Hx & ->)]]; [left; reflexivity|right; eauto].
  - split.
    + intros H. apply elem_of_nil in H. contradiction.
    + intros [H _]. apply Hc in H. discriminate.
Qed.

Lemma text_section_length heading c : length (text_section heading c) <= 21.
Proof.
  unfold text_section. destruct (nonempty c); simpl; [|lia].
  rewrite !length_map. unfold most_common. rewrite length_take. lia.
Qed.

Lemma counter_sub_nonempty a b :
  counter_sub (Counter a) (Counter b) <> [] <-> exists k, count b k < count a k.
Proof.
  split.
  - destruct (counter_sub (Counter a) (Counter b)) as [|[k n] r] eqn:E;
      [congruence|]. intros _. exists k.
    assert (Hin : (k, n) ∈ counter_sub (Counter a) (Counter b))
      by (rewrite E; apply list_elem_of_here).
    apply elem_of_counter_sub_Counter in Hin. tauto.
  - intros [k Hk] Hnil.
    assert (Hin : (k, count a k - count b k) ∈ counter_sub (Counter a) (Counter b))
      by (apply elem_of_counter_sub_Counter; auto).
    rewrite Hnil in Hin. apply elem_of_nil in Hin. exact Hin.
Qed.

(** X17: the unordered text report. "Missing text" is printed exactly when
    some text occurs more often in the base, "Extra text" exactly when some
    text occurs more often in the variant, and one of the two whenever the
    sequences are not permutations of one another; every count line shows
    the true surplus of its text; the whole report has at most 45 lines. *)
Theorem unordered_text_report (b v : VariantExtractor) (ok : bool) :
  (Stderr MissingTextTop ∈ fst (check_text true b v ok) <->
     exists k, count (text_nodes v) k < count (text_nodes b) k) /\
  (Stderr ExtraTextTop ∈ fst (check_text true b v ok) <->
     exists k, count (text_nodes b) k < count (text_nodes v) k) /\
  (forall n k, Stderr (CountedText n k) ∈ fst (check_text true b v ok) ->
     (count (text_nodes v) k < count (text_nodes b) k /\
      n = count (text_nodes b) k - count (text_nodes v) k) \/
     (count (text_nodes b) k < count (text_nodes v) k /\
      n = count (text_nodes v) k - count (text_nodes b) k)) /\
  (~ Permutation (text_nodes b) (text_nodes v) ->
     Stderr MissingTextTop ∈ fst (check_text true b v ok) \/
     Stderr ExtraTextTop ∈ fst (check_text true b v ok)) /\
  length (fst (check_text true b v ok)) <= 45.
Proof.
  rewrite check_text_unordered_trace.
  destruct (counter_eqb (Counter (text_nodes b)) (Counter (text_nodes v))) eqn:E.
  { pose proof (proj1 (counter_eqb_true _ _) E) as Hc.
    assert (Hk : forall k, count (text_nodes b) k = count (text_nodes v) k).
    { intros k. rewrite <- !counter_get_Counter. apply Hc. }
    split; [|split; [|split; [|split]]].
    - split; [intros H; apply elem_of_nil in H; contradiction|].
      intros [k H]. specialize (Hk k). lia.
    - split; [intros H; apply elem_of_nil in H; contradiction|].
      intros [k H]. specialize (Hk k). lia.
    - intros n k H. apply elem_of_nil in H. contradiction.
    - intros H. exfalso. apply H. apply counter_eqb_Permutation, E.
    - simpl. lia. }
  assert (Hm : Stderr MissingTextTop ∈
      [Stderr TextMismatchUnordered;
       Stderr (BaseTextNodes (length (text_nodes b)));
       Stderr (VarTextNodes (length (text_nodes v)))]
      ++ text_section MissingTextTop
           (counter_sub (Counter (text_nodes b)) (Counter (text_nodes v)))
      ++ text_section ExtraTextTop
           (counter_sub (Counter (text_nodes v)) (Counter (text_nodes b)))
    <-> exists k, count (text_nodes v) k < count (text_nodes b) k).
  { rewrite !elem_of_app, !text_section_elem, !counter_sub_nonempty. split.
    - intros [H|[[H _]|[_ [H|(x & _ & H)]]]]; [|exact H|discriminate|discriminate].
      apply list_elem_of_In in H. simpl in H. intuition discriminate.
    - intros H. right. left. auto. }
  assert (He : Stderr ExtraTextTop ∈
      [Stderr TextMismatchUnordered;
       Stderr (BaseTextNodes (length (text_nodes b)));
       Stderr (VarTextNodes (length (text_nodes v)))]
      ++ text_section MissingTextTop
           (counter_sub (Counter (text_nodes b)) (Counter (text_nodes v)))
      ++ text_section ExtraTextTop
           (counter_sub (Counter (text_nodes v)) (Counter (text_nodes b)))
    <-> exists k, count (text_nodes b) k < count (text_nodes v) k).
  { rewrite !elem_of_app, !text_section_elem, !counter_sub_nonempty. split.
    - intros [H|[[_ [H|(x & _ & H)]]|[H _]]]; [|discriminate|discriminate|exact H].
      apply list_elem_of_In in H. simpl in H. intuition discriminate.
    - intros H. right. right. auto. }
  split; [exact Hm|]. split; [exact He|]. split; [|split].
  - intros n k. rewrite !elem_of_app, !text_section_elem.
    intros [H|[[_ [H|(x & Hx & H)]]|[_ [H|(x & Hx & H)]]]]; try discriminate.
    + apply list_elem_of_In in H. simpl in H. intuition discriminate.
    + left. apply most_common_subset in Hx. destruct x as [k' n'].
      injection H as -> ->. apply elem_of_counter_sub_Counter in Hx. exact Hx.
    + right. apply most_common_subset in Hx. destruct x as [k' n'].
      injection H as -> ->. apply elem_of_counter_sub_Counter in Hx. exact Hx.
  - intros Hperm. rewrite Hm, He.
    destruct (decide (counter_sub (Counter (text_nodes b)) (Counter (text_nodes v)) = []))
      as [H1|H1].
    + destruct (decide (counter_sub (Counter (text_nodes v)) (Counter (text_nodes b)) = []))
        as [H2|H2].
      * exfalso. apply Hperm. apply counter_sub_both_nil. auto.
      * right. apply counter_sub_nonempty, H2.
    + left. apply counter_sub_nonempty, H1.
  - rewrite !length_app. simpl.
    pose proof (text_section_length MissingTextTop
      (counter_sub (Counter (text_nodes b)) (Counter (text_nodes v)))).
    pose proof (text_section_length ExtraTextTop
      (counter_sub (Counter (text_nodes v)) (Counter (text_nodes b)))).
    lia.
Qed.

(** ** Whole runs *)

Lemma compare_status uo b v :
  snd (compare uo b v) = Returned (if verdict uo b v then 0%Z else 1%Z).
Proof. rewrite compare_run. reflexivity. Qed.

Lemma verdict_sym uo b v : verdict uo b v = verdict uo v b.
Proof.
  apply eq_true_iff_eq. rewrite !verdict_true.
  unfold all_pass, text_passes, ids_pass, hrefs_pass.
  destruct uo; split; intros (H1 & H2 & H3);
    (split; [|split]); symmetry; assumption.
Qed.

Section RunFacts.

Variable lower : str -> str.
Variable scan : str -> exn + list event.
Variable fs : Path -> file.

(** The runs that return a status. *)
Lemma main_returned base variant uo n :
  snd (main lower scan fs base variant uo) = Returned n <->
  (n = 2%Z /\
   (fs base = Missing \/ (present (fs base) = true /\ fs variant = Missing))) \/
  (exists cb eb cv ev,
     fs base = Contents cb /\ scan cb = inr eb /\
     fs variant = Contents cv /\ scan cv = inr ev /\
     n = if verdict uo (feed_events lower init eb) (feed_events lower init ev)
         then 0%Z else 1%Z).
Proof.
  split.
  - destruct (main_cases lower scan fs base variant uo)
      as [(Hb & ->)|[(e & Hb & ->)|[(Hb & Hv & ->)|[(e & Hb & Hv & ->)
         |[(e & Hb & Hv & ->)|[(cb & e & Hb & Hs & Hv & ->)
         |[(cb & eb & e & Hb & Hs & Hv & ->)
         |[(cb & eb & cv & e & Hb & Hs & Hv & Hs' & ->)
         |(cb & eb & cv & ev & Hb & Hs & Hv & Hs' & ->)]]]]]]]]; cbn [snd];
      rewrite ?compare_status; intros H; try discriminate.
    + injection H as <-. left. auto.
    + injection H as <-. left. auto.
    + injection H as <-. right. exists cb, eb, cv, ev. auto.
  - intros [[-> [Hb|[Hb Hv]]]|(cb & eb & cv & ev & Hb & Hs & Hv & Hs' & ->)].
    + rewrite (main_base_missing lower scan fs base variant uo Hb). reflexivity.
    + rewrite (main_variant_missing lower scan fs base variant uo Hb Hv).
      reflexivity.
    + rewrite (main_readable lower scan fs base variant cb cv eb ev uo
                 Hb Hv Hs Hs').
      cbn [snd]. apply compare_status.
Qed.

(** The runs that end in an exception. *)
Lemma main_raised base variant uo e :
  snd (main lower scan fs base variant uo) = Raised e <->
  fs base = Inaccessible e \/
  (present (fs base) = true /\ fs variant = Inaccessible e) \/
  (fs base = Unreadable e /\ present (fs variant) = true) \/
  (exists cb, fs base = Contents cb /\ scan cb = inl e /\
              present (fs variant) = true) \/
  (exists cb eb, fs base = Contents cb /\ scan cb = inr eb /\
                 fs variant = Unreadable e) \/
  (exists cb eb cv, fs base = Contents cb /\ scan cb = inr eb /\
                    fs variant = Contents cv /\ scan cv = inl e).
Proof.
  split.
  - destruct (main_cases lower scan fs base variant uo)
      as [(Hb & ->)|[(e' & Hb & ->)|[(Hb & Hv & ->)|[(e' & Hb & Hv & ->)
         |[(e' & Hb & Hv & ->)|[(cb & e' & Hb & Hs & Hv & ->)
         |[(cb & eb & e' & Hb & Hs & Hv & ->)
         |[(cb & eb & cv & e' & Hb & Hs & Hv & Hs' & ->)
         |(cb & eb & cv & ev & Hb & Hs & Hv & Hs' & ->)]]]]]]]]; cbn [snd];
      rewrite ?compare_status; intros H; try discriminate;
      injection H as <-.
    + left. exact Hb.
    + right. left. auto.
    + do 2 right. left. auto.
    + do 3 right. left. exists cb. auto.
    + do 4 right. left. exists cb, eb. auto.
    + do 5 right. exists cb, eb, cv. auto.
  - intros [Hb|[[Hb Hv]|[[Hb Hv]|[(cb & Hb & Hs & Hv)
           |[(cb & eb & Hb & Hs & Hv)|(cb & eb & cv & Hb & Hs & Hv & Hs')]]]]].
    + rewrite (main_base_inaccessible lower scan fs base variant uo e Hb).
      reflexivity.
    + rewrite (main_variant_inaccessible lower scan fs base variant uo e Hb Hv).
      reflexivity.
    + rewrite (main_base_unreadable lower scan fs base variant uo e Hb Hv).
      reflexivity.
    + rewrite (main_base_parse_error lower scan fs base variant uo cb e
                 Hb Hs Hv).
      reflexivity.
    + rewrite (main_variant_unreadable lower scan fs base variant uo cb eb e
                 Hb Hs Hv).
      reflexivity.
    + rewrite (main_variant_parse_error lower scan fs base variant uo cb eb cv e
                 Hb Hs Hv Hs').
      reflexivity.
Qed.

(** With the two paths swapped, a run whose existence checks do not raise
    returns the same status, if it returns one. *)
Lemma main_returned_swap p q uo n :
  (forall e, fs q <> Inaccessible e) ->
  snd (main lower scan fs p q uo) = Returned n ->
  snd (main lower scan fs q p uo) = Returned n.
Proof.
  intros Hq H. apply main_returned in H. apply main_returned.
  destruct H as [[-> [Hp|[Hp Hq']]]
                |(cb & eb & cv & ev & Hp & Hs & Hq' & Hs' & ->)].
  - left. split; [reflexivity|].
    destruct (fs q) as [|e|e|cv] eqn:E; auto.
    exfalso. apply (Hq e). reflexivity.
  - left. auto.
  - right. exists cv, ev, cb, eb. rewrite verdict_sym. auto.
Qed.

End RunFacts.

(** X18: how a run ends. It returns 2 exactly when the existence check
    reports the base missing, or the base present and the variant missing.
    It ends in an exception [e] exactly when [e] is raised by the first
    step that raises, the steps being, in this order: the existence check
    of the base, the existence check of the variant, reading the base,
    parsing the base, reading the variant, parsing the variant. Every
    other run returns 0 or 1. *)
Theorem exit_status (lower : str -> str) (scan : str -> exn + list event)
    (fs : Path -> file) (base variant : Path) (unordered_text : bool) :
  (snd (main lower scan fs base variant unordered_text) = Returned 2%Z <->
     fs base = Missing \/ (present (fs base) = true /\ fs variant = Missing)) /\
  (forall e,
     snd (main lower scan fs base variant unordered_text) = Raised e <->
     fs base = Inaccessible e \/
     (present (fs base) = true /\ fs variant = Inaccessible e) \/
     (fs base = Unreadable e /\ present (fs variant) = true) \/
     (exists cb, fs base = Contents cb /\ scan cb = inl e /\
                 present (fs variant) = true) \/
     (exists cb eb, fs base = Contents cb /\ scan cb = inr eb /\
                    fs variant = Unreadable e) \/
     (exists cb eb cv, fs base = Contents cb /\ scan cb = inr eb /\
                       fs variant = Contents cv /\ scan cv = inl e)) /\
  (forall n, snd (main lower scan fs base variant unordered_text) = Returned n ->
     n = 0%Z \/ n = 1%Z \/ n = 2%Z).
Proof.
  split; [|split].
  - rewrite main_returned. split.
    + intros [[_ H]|(cb & eb & cv & ev & _ & _ & _ & _ & H)]; [exact H|].
      destruct (verdict _ _ _); discriminate.
    + intros H. left. auto.
  - intros e. apply main_raised.
  - intros n H. apply main_returned in H
      as [[-> _]|(cb & eb & cv & ev & _ & _ & _ & _ & ->)]; auto.
    destruct (verdict _ _ _); auto.
Qed.



(** X20: swapping the two paths does not change the exit status: when both
    orders return a status it is the same one; and when neither existence
    check raises, one order returns a status exactly when the other does.
    (When both orders end in an exception it need not be the same one:
    each run stops at the first file it cannot process.) *)
Theorem status_symmetric (lower : str -> str) (scan : str -> exn + list event)
    (fs : Path -> file) (base variant : Path) (unordered_text : bool) :
  (forall n m,
     snd (main lower scan fs base variant unordered_text) = Returned n ->
     snd (main lower scan fs variant base unordered_text) = Returned m ->
     n = m) /\
  ((forall e, fs base <> Inaccessible e) ->
   (forall e, fs variant <> Inaccessible e) ->
   forall n,
     snd (main lower scan fs base variant unordered_text) = Returned n <->
     snd (main lower scan fs variant base unordered_text) = Returned n).
Proof.
  split.
  - intros n m Hn Hm. apply main_returned in Hn, Hm.
    destruct Hn as [[-> Hn]|(cb & eb & cv & ev & Hb & Hs & Hv & Hs' & ->)];
    destruct Hm as [[-> Hm]|(cb' & eb' & cv' & ev' & Hb' & Hs0 & Hv' & Hs1 & ->)].
    + reflexivity.
    + exfalso. destruct Hn as [Hn|[_ Hn]]; congruence.
    + exfalso. destruct Hm as [Hm|[_ Hm]]; congruence.
    + assert (cb' = cv) as -> by congruence.
      assert (cv' = cb) as -> by congruence.
      assert (eb' = ev) as -> by congruence.
      assert (ev' = eb) as -> by congruence.
      rewrite verdict_sym. reflexivity.
  - intros Hb Hv n. split; apply main_returned_swap; assumption.
Qed.

Lemma status_symmetric_witness :
  snd (main ascii_lower plain_scan
         (files [(u "a.html", u "Hello"); (u "b.html", u "World")])
         (u "a.html") (u "b.html") false) = Returned 1%Z /\
  snd (main ascii_lower plain_scan
         (files [(u "a.html", u "Hello"); (u "b.html", u "World")])
         (u "b.html") (u "a.html") false) = Returned 1%Z.
Proof.
  assert (H : snd (main ascii_lower plain_scan
                     (files [(u "a.html", u "Hello"); (u "b.html", u "World")])
                     (u "a.html") (u "b.html") false) = Returned 1%Z)
    by (vm_compute; reflexivity).
  split; [exact H|].
  apply (proj2 (status_symmetric ascii_lower plain_scan
                  (files [(u "a.html", u "Hello"); (u "b.html", u "World")])
                  (u "a.html") (u "b.html") false)).
  - intros e. vm_compute. discriminate.
  - intros e. vm_compute. discriminate.
  - exact H.
Defined.

(** X21: the unordered mode accepts whatever the ordered mode accepts: a
    run that returns 0 in the ordered mode is the same run, trace and
    status, in the unordered mode. *)
Theorem ordered_pass_implies_unordered (lower : str -> str)
    (scan : str -> exn + list event) (fs : Path -> file) (base variant : Path) :
  snd (main lower scan fs base variant false) = Returned 0%Z ->
  main lower scan fs base variant true = main lower scan fs base variant false.
Proof.
  intros H. apply main_returned in H
    as [[H _]|(cb & eb & cv & ev & Hb & Hs & Hv & Hs' & H)]; [discriminate|].
  destruct (verdict false _ _) eqn:E; [|discriminate].
  rewrite (main_readable lower scan fs base variant cb cv eb ev true Hb Hv Hs Hs'),
          (main_readable lower scan fs base variant cb cv eb ev false Hb Hv Hs Hs').
  apply verdict_true in E. destruct E as (Ht & Hi & Hh).
  assert (Hall : all_pass true (feed_events lower init eb)
                               (feed_events lower init ev)).
  { split; [|split; assumption]. unfold text_passes in *. rewrite Ht. reflexivity. }
  assert (Hall' : all_pass false (feed_events lower init eb)
                                 (feed_events lower init ev)).
  { split; [exact Ht|]. split; assumption. }
  rewrite (proj1 (compare_verdict _ _ _) Hall),
          (proj1 (compare_verdict _ _ _) Hall'). reflexivity.
Qed.

Lemma ordered_pass_implies_unordered_witness :
  main ascii_lower plain_scan
       (files [(u "a.html", u "Hello  world"); (u "b.html", u " Hello world")])
       (u "a.html") (u "b.html") true
  = main ascii_lower plain_scan
       (files [(u "a.html", u "Hello  world"); (u "b.html", u " Hello world")])
       (u "a.html") (u "b.html") false.
Proof.
  apply (ordered_pass_implies_unordered ascii_lower plain_scan
           (files [(u "a.html", u "Hello  world"); (u "b.html", u " Hello world")])
           (u "a.html") (u "b.html")).
  vm_compute. reflexivity.
Defined.

Lemma stderr_stdout_prefix base variant cb cv t :
  stderr_of ([Exists base; Exists variant; ReadText base; Feed cb;
              ReadText variant; Feed cv] ++ t) = stderr_of t /\
  stdout_of ([Exists base; Exists variant; ReadText base; Feed cb;
              ReadText variant; Feed cv] ++ t) = stdout_of t.
Proof. split; reflexivity. Qed.

(** X22: status and output agree. A run prints [OK] exactly when it
    returns 0, and then prints nothing to standard error; a run that
    returns 1 or 2 prints at least one line to standard error and nothing
    to standard output. *)
Theorem status_matches_output (lower : str -> str) (scan : str -> exn + list event)
    (fs : Path -> file) (base variant : Path) (unordered_text : bool) :
  (stdout_of (fst (main lower scan fs base variant unordered_text)) = [OK] <->
     snd (main lower scan fs base variant unordered_text) = Returned 0%Z) /\
  (snd (main lower scan fs base variant unordered_text) = Returned 0%Z ->
     stderr_of (fst (main lower scan fs base variant unordered_text)) = []) /\
  (snd (main lower scan fs base variant unordered_text) = Returned 1%Z \/
   snd (main lower scan fs base variant unordered_text) = Returned 2%Z ->
     stderr_of (fst (main lower scan fs base variant unordered_text)) <> [] /\
     stdout_of (fst (main lower scan fs base variant unordered_text)) = []).
Proof.
  destruct (main_cases lower scan fs base variant unordered_text)
    as [(Hb & ->)|[(e & Hb & ->)|[(Hb & Hv & ->)|[(e & Hb & Hv & ->)
       |[(e & Hb & Hv & ->)|[(cb & e & Hb & Hs & Hv & ->)
       |[(cb & eb & e & Hb & Hs & Hv & ->)
       |[(cb & eb & cv & e & Hb & Hs & Hv & Hs' & ->)
       |(cb & eb & cv & ev & Hb & Hs & Hv & Hs' & ->)]]]]]]]]; cbn [fst snd].
  1-8: (split; [split; discriminate|]; split; [discriminate|];
        intros [H|H]; first [discriminate | split; [discriminate|reflexivity]]).
  destruct (stderr_stdout_prefix base variant cb cv
              (fst (compare unordered_text (feed_events lower init eb)
                                           (feed_events lower init ev))))
    as [-> ->].
  set (b := feed_events lower init eb).
  set (v := feed_events lower init ev).
  destruct (compare_verdict unordered_text b v) as (Hok & Hko).
  rewrite compare_status. destruct (verdict unordered_text b v) eqn:E.
  - apply verdict_true in E. rewrite (Hok E). cbn.
    split; [tauto|]. split; [reflexivity|]. intros [H|H]; discriminate.
  - assert (Hn : ~ all_pass unordered_text b v).
    { rewrite <- verdict_true, E. discriminate. }
    destruct (Hko Hn) as [_ Hout]. rewrite Hout.
    split; [split; discriminate|]. split; [discriminate|].
    intros _. split; [|reflexivity].
    destruct (compare_headings unordered_text b v) as (H1 & H2 & H3).
    intros Hnil.
    assert (Hno : forall l, ~ Stderr l ∈ fst (compare unordered_text b v)).
    { intros l Hl. apply elem_of_stderr_of in Hl. rewrite Hnil in Hl.
      apply elem_of_nil in Hl. exact Hl. }
    apply Hn. split; [|split].
    + destruct (text_okb unordered_text b v) eqn:Et; [apply text_okb_true, Et|].
      apply text_okb_false in Et. apply H1 in Et as [Hl|Hl]; exfalso; eapply Hno, Hl.
    + destruct (decide (ids b = ids v)) as [|Hd]; [assumption|].
      exfalso. eapply Hno. apply H2. exact Hd.
    + destruct (decide (anchor_hrefs b = anchor_hrefs v)) as [|Hd]; [assumption|].
      exfalso. eapply Hno. apply H3. exact Hd.
Qed.
